(** * The 100 m race application: phase machine, kinematics, ranking,
      personal bests and camera framing.

    Shallow embedding of [src/apps/race-100m/main.js].

    Numbers.  JavaScript numbers are modelled by the rationals [Q] with
    exact arithmetic; rounding of binary64, infinities and NaN are not
    modelled.  Every property below is about comparisons, minima, clamping
    and control flow, none about rounding.

    Objects.  The table of personal bests is a plain object used as a
    map from names to numbers: a finite map for its own keys, read with
    [JS.get], which falls back on the properties every object inherits.

    Time.  [performance.now()] is an input: every event carries the
    reading [now] (milliseconds) taken while it is handled, and the world
    only accepts readings that do not go backwards.

    Outside the model: the renderer, the actor library ([gvrm.update()],
    model loading), the sound synthesis itself (only the fact that a cue
    was played is recorded) and [localStorage]. *)

From Stdlib Require Import QArith Qminmax Lqa.
From stdpp Require Import gmap strings list sorting pretty.

(** ** Built-ins of the language and of three.js used by the program *)

Module JS.

(** [x < y] on numbers. *)
Definition ltb (x y : Q) : bool := negb (Qle_bool y x).

(** [x >= y] on numbers. *)
Definition geb (x y : Q) : bool := Qle_bool y x.

(** [Math.min(x, ...xs)] with at least one argument. *)
Definition Math_min (x : Q) (xs : list Q) : Q := foldl Qmin x xs.

(** [Math.max(x, ...xs)] with at least one argument. *)
Definition Math_max (x : Q) (xs : list Q) : Q := foldl Qmax x xs.

(** [THREE.MathUtils.clamp(value, min, max)], which three.js defines as
    [Math.max(min, Math.min(max, value))]. *)
Definition clamp (value lo hi : Q) : Q := Qmax lo (Qmin hi value).

(** [Array.prototype.sort(cmp)].  The language requires the sort to be
    stable; for a consistent comparator every conforming implementation
    returns the list computed by this stable insertion sort.  [cmp a b]
    is the number the comparator returns: negative puts [a] first,
    positive puts [b] first, zero keeps the two in their input order. *)
Section Sort.
Context {A : Type} (cmp : A → A → Q).

Fixpoint insert (x : A) (l : list A) : list A :=
  match l with
  | [] => [x]
  | y :: l' => if Qle_bool (cmp x y) 0 then x :: y :: l' else y :: insert x l'
  end.

Fixpoint Array_sort (l : list A) : list A :=
  match l with
  | [] => []
  | x :: l' => insert x (Array_sort l')
  end.
End Sort.

(** [s || d] on strings: the empty string is falsy. *)
Definition or_string (s : option string) (d : string) : string :=
  match s with
  | Some EmptyString | None => d
  | Some v => v
  end.

(** The property names every plain object inherits from
    [Object.prototype]. *)
Definition objectPrototypeKeys : list string :=
  [ "constructor"; "hasOwnProperty"; "isPrototypeOf"; "propertyIsEnumerable";
    "toLocaleString"; "toString"; "valueOf"; "__proto__";
    "__defineGetter__"; "__defineSetter__"; "__lookupGetter__";
    "__lookupSetter__" ].

(** What reading a property of a plain object with numeric own
    properties gives: [undefined], a number, or one of the functions and
    objects found on the prototype. *)
Inductive Value :=
  | VUndefined
  | VNumber (x : Q)
  | VObject.

(** [o[k]] for a plain object [o] (an object literal or the result of
    [JSON.parse]) whose own properties are [m]: an own property wins,
    then the prototype is asked. *)
Definition get (m : gmap string Q) (k : string) : Value :=
  match m !! k with
  | Some x => VNumber x
  | None => if bool_decide (k ∈ objectPrototypeKeys) then VObject else VUndefined
  end.

End JS.

(** ** Track parameters (lines 23-27, 169-172) *)

Definition lanes : list Q := [-4.5; -1.5; 1.5; 4.5]%Q.
Definition laneColors : list string := ["#ef4444"; "#22c55e"; "#3b82f6"; "#eab308"].
Definition startZ : Q := 0.
Definition finishZ : Q := 100.

Definition trackMinX : Q := (JS.Math_min (-4.5) [-1.5; 1.5; 4.5] - 1.8)%Q.
Definition trackMaxX : Q := (JS.Math_max (-4.5) [-1.5; 1.5; 4.5] + 1.8)%Q.
Definition trackWidth : Q := (trackMaxX - trackMinX)%Q.

(** ** Data model *)

(** A runner (line 45).  [posX], [posY], [posZ] are [object.position];
    [timeScale] is [gvrm.character.action.timeScale]. *)
Record Runner := mkRunner {
  id : string;
  lane : nat;
  color : string;
  posX : Q;
  posY : Q;
  posZ : Q;
  speed : Q;
  finished : bool;
  tFinish : option Q;
  timeScale : Q
}.

(** The closure state of one [countdown(labels, ms, onTick)] call: its
    arguments and the captured counter [i]. *)
Record Countdown := mkCountdown {
  cd_labels : list string;
  cd_ms : Q;
  cd_i : nat
}.

(** What a pending [setTimeout] will run. *)
Inductive Task :=
  | THide (c : Countdown)     (* line 247: hide the label, then schedule [step] *)
  | TStep (c : Countdown)     (* line 247: the inner [setTimeout(step, 120)] *)
  | TFlashOff.                (* line 336: remove the finish flash *)

Record Timer := mkTimer { due : Q; task : Task }.

(** Sound cues that were played. *)
Inductive Cue :=
  | CueBeep (label : string)  (* [playCountBeep(label)] *)
  | CueGunshot.               (* [playGunshot()] *)

(** One chip of the score board (lines 225-235), before formatting. *)
Record ScoreRow := mkScoreRow {
  row_lane : nat;
  row_name : string;
  row_time : option Q;
  row_medal : option nat;
  row_pb : option Q
}.

Definition Vec3 : Type := Q * Q * Q.

(** The module-level variables and the parts of the page they drive. *)
Record State := mkState {
  runners : list Runner;
  raceStarted : bool;
  tStart : Q;
  lastT : Q;
  audio : bool;
  names : list string;
  pbs : gmap string Q;
  timers : list Timer;
  cues : list Cue;
  countdownText : string;
  countdownVisible : bool;
  timerText : Q;
  scores : list ScoreRow;
  finishFlash : bool;
  camPos : Vec3;
  camLookAt : Vec3
}.

(** Field updates, written out once. *)

Definition set_posZ (z : Q) (r : Runner) : Runner :=
  mkRunner (id r) (lane r) (color r) (posX r) (posY r) z (speed r)
           (finished r) (tFinish r) (timeScale r).

Definition set_runners (rs : list Runner) (s : State) : State :=
  mkState rs (raceStarted s) (tStart s) (lastT s) (audio s) (names s) (pbs s)
          (timers s) (cues s) (countdownText s) (countdownVisible s)
          (timerText s) (scores s) (finishFlash s) (camPos s) (camLookAt s).

Definition set_raceStarted (b : bool) (s : State) : State :=
  mkState (runners s) b (tStart s) (lastT s) (audio s) (names s) (pbs s)
          (timers s) (cues s) (countdownText s) (countdownVisible s)
          (timerText s) (scores s) (finishFlash s) (camPos s) (camLookAt s).

Definition set_tStart (t : Q) (s : State) : State :=
  mkState (runners s) (raceStarted s) t (lastT s) (audio s) (names s) (pbs s)
          (timers s) (cues s) (countdownText s) (countdownVisible s)
          (timerText s) (scores s) (finishFlash s) (camPos s) (camLookAt s).

Definition set_lastT (t : Q) (s : State) : State :=
  mkState (runners s) (raceStarted s) (tStart s) t (audio s) (names s) (pbs s)
          (timers s) (cues s) (countdownText s) (countdownVisible s)
          (timerText s) (scores s) (finishFlash s) (camPos s) (camLookAt s).

Definition set_audio (b : bool) (s : State) : State :=
  mkState (runners s) (raceStarted s) (tStart s) (lastT s) b (names s) (pbs s)
          (timers s) (cues s) (countdownText s) (countdownVisible s)
          (timerText s) (scores s) (finishFlash s) (camPos s) (camLookAt s).

Definition set_names (ns : list string) (s : State) : State :=
  mkState (runners s) (raceStarted s) (tStart s) (lastT s) (audio s) ns (pbs s)
          (timers s) (cues s) (countdownText s) (countdownVisible s)
          (timerText s) (scores s) (finishFlash s) (camPos s) (camLookAt s).

Definition set_pbs (m : gmap string Q) (s : State) : State :=
  mkState (runners s) (raceStarted s) (tStart s) (lastT s) (audio s) (names s) m
          (timers s) (cues s) (countdownText s) (countdownVisible s)
          (timerText s) (scores s) (finishFlash s) (camPos s) (camLookAt s).

Definition set_timers (ts : list Timer) (s : State) : State :=
  mkState (runners s) (raceStarted s) (tStart s) (lastT s) (audio s) (names s) (pbs s)
          ts (cues s) (countdownText s) (countdownVisible s)
          (timerText s) (scores s) (finishFlash s) (camPos s) (camLookAt s).

Definition set_cues (cs : list Cue) (s : State) : State :=
  mkState (runners s) (raceStarted s) (tStart s) (lastT s) (audio s) (names s) (pbs s)
          (timers s) cs (countdownText s) (countdownVisible s)
          (timerText s) (scores s) (finishFlash s) (camPos s) (camLookAt s).

Definition set_countdownText (t : string) (s : State) : State :=
  mkState (runners s) (raceStarted s) (tStart s) (lastT s) (audio s) (names s) (pbs s)
          (timers s) (cues s) t (countdownVisible s)
          (timerText s) (scores s) (finishFlash s) (camPos s) (camLookAt s).

Definition set_countdownVisible (b : bool) (s : State) : State :=
  mkState (runners s) (raceStarted s) (tStart s) (lastT s) (audio s) (names s) (pbs s)
          (timers s) (cues s) (countdownText s) b
          (timerText s) (scores s) (finishFlash s) (camPos s) (camLookAt s).

Definition set_timerText (t : Q) (s : State) : State :=
  mkState (runners s) (raceStarted s) (tStart s) (lastT s) (audio s) (names s) (pbs s)
          (timers s) (cues s) (countdownText s) (countdownVisible s)
          t (scores s) (finishFlash s) (camPos s) (camLookAt s).

Definition set_scores (rows : list ScoreRow) (s : State) : State :=
  mkState (runners s) (raceStarted s) (tStart s) (lastT s) (audio s) (names s) (pbs s)
          (timers s) (cues s) (countdownText s) (countdownVisible s)
          (timerText s) rows (finishFlash s) (camPos s) (camLookAt s).

Definition set_finishFlash (b : bool) (s : State) : State :=
  mkState (runners s) (raceStarted s) (tStart s) (lastT s) (audio s) (names s) (pbs s)
          (timers s) (cues s) (countdownText s) (countdownVisible s)
          (timerText s) (scores s) b (camPos s) (camLookAt s).

Definition set_camera (p l : Vec3) (s : State) : State :=
  mkState (runners s) (raceStarted s) (tStart s) (lastT s) (audio s) (names s) (pbs s)
          (timers s) (cues s) (countdownText s) (countdownVisible s)
          (timerText s) (scores s) (finishFlash s) p l.

(** [setTimeout(task, delay)] issued at time [now]. *)
Definition setTimeout (now delay : Q) (t : Task) (s : State) : State :=
  set_timers (timers s ++ [mkTimer (now + delay)%Q t]) s.

(** ** Names and personal bests (lines 303-329) *)

Definition defaultNames : list string := ["Lane 1"; "Lane 2"; "Lane 3"; "Lane 4"].

(** [loadNames()]: [stored] is the parsed array under [NAMES_KEY], or
    [None] when the key is missing, unparseable or not an array. *)
Definition loadNames (stored : option (list string)) : list string :=
  match stored with
  | Some arr => if (4 <=? length arr)%nat then take 4 arr else defaultNames
  | None => defaultNames
  end.

(** [loadPBs()]: the stored table, or the empty one.  The stored values
    are taken to be numbers, as [savePBs] writes them. *)
Definition loadPBs (stored : option (gmap string Q)) : gmap string Q :=
  default ∅ stored.

(** [names[r.lane - 1] || `Lane ${r.lane}`]; lanes are numbered from 1
    (a lane 0, which [loadRunners] never makes, would read index -1 in
    the code and index 0 here). *)
Definition displayName (ns : list string) (r : Runner) : string :=
  JS.or_string (ns !! (lane r - 1)%nat) ("Lane " +:+ pretty (lane r)).

(** The body of the loop of [finalizePBs] for one runner.  [prev] is
    read through the prototype chain: under a name such as "constructor"
    with no own record it is a function, which is not null and compares
    false with every number, so nothing is written. *)
Definition finalizePB (ns : list string) (m : gmap string Q) (r : Runner)
  : gmap string Q :=
  match tFinish r with
  | None => m
  | Some t =>
      let name := displayName ns r in
      match JS.get m name with
      | JS.VUndefined => <[name := t]> m
      | JS.VNumber prev => if JS.ltb t prev then <[name := t]> m else m
      | JS.VObject => m
      end
  end.

(** ** Score board (lines 216-236) *)

(** The comparator passed to [sort]. *)
Definition compareFn (a b : Runner) : Q :=
  match tFinish a, tFinish b with
  | None, None => 0
  | None, Some _ => 1
  | Some _, None => -1
  | Some ta, Some tb => ta - tb
  end.

(** [sorted] of [updateScores]. *)
Definition rank (rs : list Runner) : list Runner := JS.Array_sort compareFn rs.

(** [pb.toFixed(2)] of a row throws when [pb], read through the
    prototype chain, is neither null nor a number. *)
Definition row_throws (ns : list string) (m : gmap string Q) (r : Runner) : bool :=
  match JS.get m (displayName ns r) with
  | JS.VObject => true
  | _ => false
  end.

(** Whether [updateScores] would throw: some row cannot be formatted.
    The rows are a permutation of the runners, so this can be asked of
    the runners. *)
Definition updateScores_throws (s : State) : bool :=
  existsb (row_throws (names s) (pbs s)) (runners s).

(** One row, for a [pb] that is null or a number. *)
Definition scoreRow (ns : list string) (m : gmap string Q) (idx : nat) (r : Runner)
  : ScoreRow :=
  let name := displayName ns r in
  mkScoreRow (lane r) name (tFinish r)
             (match tFinish r with
              | Some _ => if (idx <? 3)%nat then Some idx else None
              | None => None
              end)
             (m !! name).

(** The [forEach] of [updateScores] from row [idx] on, appending to the
    board; the flag tells whether it threw, which it does at the first
    row whose [pb] has no [toFixed], leaving the rows before it. *)
Fixpoint forEachRow (ns : list string) (m : gmap string Q) (idx : nat)
    (sorted : list Runner) (rows : list ScoreRow) : list ScoreRow * bool :=
  match sorted with
  | [] => (rows, false)
  | r :: rest =>
      if row_throws ns m r then (rows, true)
      else forEachRow ns m (S idx) rest (rows ++ [scoreRow ns m idx r])
  end.

(** [updateScores()] with its exception: the board it leaves, and
    whether it threw. *)
Definition updateScores_js (s : State) : State * bool :=
  let out := forEachRow (names s) (pbs s) 0 (rank (runners s)) [] in
  (set_scores out.1 s, out.2).

(** [updateScores()] where it returns, that is when
    [updateScores_throws] is false ([updateScores_js] is then this state,
    see [updateScores_js_returns]).  Where it is true the code clears the
    board, writes the rows before the first one it cannot format and
    throws, which ends the handler that called it; the statements below
    that depend on the board or on what follows a call exclude those
    states by [board_safe]. *)
Definition updateScores (s : State) : State :=
  set_scores (imap (scoreRow (names s) (pbs s)) (rank (runners s))) s.

(** [finalizePBs()]; [savePBs()] only writes to the store. *)
Definition finalizePBs (s : State) : State :=
  updateScores (set_pbs (foldl (finalizePB (names s)) (pbs s) (runners s)) s).

(** ** Runners (lines 126-167) *)

(** One element of [promises]; [u] is the value [Math.random()] returned
    for this lane. *)
Definition loadRunner (rand : nat → Q) (i : nat) : Runner :=
  mkRunner ("lane" +:+ pretty (i + 1)%nat) (i + 1)
           (default "" (laneColors !! i))
           (default 0%Q (lanes !! i)) 0%Q startZ
           (6.5 + rand i * 2.2)%Q false None 2.2%Q.

(** [loadRunners()]: four sources, one runner each, in lane order. *)
Definition loadRunners (rand : nat → Q) : list Runner :=
  loadRunner rand <$> seq 0 4.

(** ** Finish flash (lines 331-337) *)

Definition is_flash_timer (t : Timer) : bool :=
  match task t with TFlashOff => true | _ => false end.

Definition flashFinish (now : Q) (s : State) : State :=
  let s := set_timers (filter (λ t, is_flash_timer t = false) (timers s)) s in
  let s := set_finishFlash true s in
  setTimeout now 180 TFlashOff s.

(** ** Sound cues (lines 339-376) *)

Definition ensureAudio (s : State) : State := set_audio true s.

Definition playCountBeep (label : string) (s : State) : State :=
  if audio s then set_cues (cues s ++ [CueBeep label]) s else s.

Definition playGunshot (s : State) : State :=
  if audio s then set_cues (cues s ++ [CueGunshot]) s else s.

(** ** Start, countdown, reset (lines 194-214, 238-251) *)

(** The callback passed to [then] in [startRace]. *)
Definition onCountdownDone (now : Q) (s : State) : State :=
  set_raceStarted true (set_tStart now (playGunshot s)).

(** [step] of [countdown] for the closure [c], run at time [now].  The
    promise is only ever resolved into the callback of [startRace], which
    runs before any other event. *)
Definition countdown_step (now : Q) (c : Countdown) (s : State) : State :=
  if (length (cd_labels c) <=? cd_i c)%nat then
    onCountdownDone now (set_countdownVisible false s)
  else
    let label := default "" (cd_labels c !! cd_i c) in
    let c' := mkCountdown (cd_labels c) (cd_ms c) (S (cd_i c)) in
    let s := set_countdownText label s in
    let s := set_countdownVisible true s in
    let s := playCountBeep label s in
    setTimeout now (cd_ms c) (THide c') s.

(** The callback of the outer [setTimeout] of [step]. *)
Definition countdown_hide (now : Q) (c : Countdown) (s : State) : State :=
  setTimeout now 120 (TStep c) (set_countdownVisible false s).

Definition countdown (labels : list string) (ms : Q) (now : Q) (s : State) : State :=
  countdown_step now (mkCountdown labels ms 0) s.

Definition startRace (now : Q) (s : State) : State :=
  if raceStarted s then s
  else countdown ["3"; "2"; "1"; "GO!"] 700 now (ensureAudio s).

Definition resetRunner (i : nat) (r : Runner) : Runner :=
  mkRunner (id r) (lane r) (color r) (default 0%Q (lanes !! i)) 0%Q startZ
           (speed r) false None 2.2%Q.

Definition resetRace (s : State) : State :=
  let s := set_raceStarted false s in
  let s := set_timerText 0 s in
  let s := set_runners (imap resetRunner (runners s)) s in
  updateScores s.

(** ** Camera framing (lines 169-192) and the render loop (lines 78-118) *)

(** [Vector3.lerp(v, alpha)]. *)
Definition lerp (p v : Vec3) (alpha : Q) : Vec3 :=
  let '(px, py, pz) := p in
  let '(vx, vy, vz) := v in
  (px + (vx - px) * alpha, py + (vy - py) * alpha, pz + (vz - pz) * alpha)%Q.

(** [focusZ] of [fitCameraToTrack]: [avgZ], overwritten by [tailZ] when
    there are runners. *)
Definition focusZ (avgZ : Q) (rs : list Runner) : Q :=
  match rs with
  | [] => avgZ
  | r :: rs' => JS.Math_min (posZ r) (posZ <$> rs')
  end.

(** [avgZ] of the render loop (line 88). *)
Definition averageZ (rs : list Runner) : Q :=
  match rs with
  | [] => 0
  | _ => (foldl (λ s r, s + posZ r) 0 rs / inject_Z (Z.of_nat (length rs)))%Q
  end.

(** The loop body for the runner at index [k] (lines 96-107); the array is
    updated in place, so [updateScores] sees the runners already advanced
    in this frame and the others as they were. *)
Definition advanceRunner (now elapsed dt : Q) (s : State) (k : nat) : State :=
  match runners s !! k with
  | None => s
  | Some r =>
      if finished r then s
      else
        let z := (posZ r + speed r * dt)%Q in
        if JS.geb z finishZ then
          let r' := mkRunner (id r) (lane r) (color r) (posX r) (posY r) finishZ
                             (speed r) true (Some elapsed) 0.6%Q in
          updateScores (flashFinish now (set_runners (<[k := r']> (runners s)) s))
        else set_runners (<[k := set_posZ z r]> (runners s)) s
  end.

Section Engine.

(** [Math.tan(vFov / 2)] for the camera's vertical field of view of 62
    degrees, about 0.60086; the tangent is not a rational function, so
    its value is a parameter. *)
Variable tanHalfFov : Q.

(** [d] of [fitCameraToTrack] after clamping; [aspect] is
    [canvas.clientWidth / canvas.clientHeight].  The quotient is the
    code's for a positive tangent and a positive aspect; with a zero
    divisor the code divides to [Infinity], which the rationals do not
    have, so the statements about the value of [d] assume both positive. *)
Definition cameraDistance (aspect : Q) : Q :=
  let halfWidth := ((trackWidth / 2) * 1.1)%Q in
  let d := (halfWidth / (tanHalfFov * aspect))%Q in
  JS.clamp d 7 16.

Definition fitCameraToTrack (aspect avgZ : Q) (s : State) : State :=
  let d := cameraDistance aspect in
  let targetZ := (focusZ avgZ (runners s) + 2)%Q in
  let targetY := Qmax 5 (d * 0.28) in
  let pos : Vec3 := (0, targetY, targetZ - d * 0.8)%Q in
  set_camera (lerp (camPos s) pos 0.12) (0, 1.6, targetZ)%Q s.

(** The callback of [renderer.setAnimationLoop]. *)
Definition animationLoop (now aspect : Q) (s : State) : State :=
  let dt := Qmin 0.05 ((now - lastT s) / 1000) in
  let s := set_lastT now s in
  let s := fitCameraToTrack aspect (averageZ (runners s)) s in
  if raceStarted s then
    let elapsed := ((now - tStart s) / 1000)%Q in
    let s := set_timerText elapsed s in
    let s := foldl (advanceRunner now elapsed dt) s (seq 0 (length (runners s))) in
    if forallb finished (runners s) then finalizePBs (set_raceStarted false s)
    else s
  else s.

(** ** The page as a transition system *)

(** What can happen: a rendered frame, a click on Start (or the space
    key), a click on Reset, the [k]-th pending timer firing, and the
    names dialog being saved with the resolved input values. *)
Inductive Event :=
  | Frame (now aspect : Q)
  | ClickStart (now : Q)
  | ClickReset (now : Q)
  | Timeout (now : Q) (k : nat)
  | SaveNames (now : Q) (vals : list string).

Definition time_of (e : Event) : Q :=
  match e with
  | Frame now _ | ClickStart now | ClickReset now | Timeout now _
  | SaveNames now _ => now
  end.

(** The application state together with the last clock reading. *)
Record World := mkWorld { clock : Q; app : State }.

Definition fire (now : Q) (t : Task) (s : State) : State :=
  match t with
  | THide c => countdown_hide now c s
  | TStep c => countdown_step now c s
  | TFlashOff => set_finishFlash false s
  end.

(** The handler of an event.  A timer can only fire once it is due. *)
Definition handle (e : Event) (s : State) : option State :=
  match e with
  | Frame now aspect => Some (animationLoop now aspect s)
  | ClickStart now => Some (startRace now s)
  | ClickReset _ => Some (resetRace s)
  | Timeout now k =>
      match timers s !! k with
      | Some t =>
          if Qle_bool (due t) now
          then Some (fire now (task t) (set_timers (delete k (timers s)) s))
          else None
      | None => None
      end
  | SaveNames _ vals => Some (updateScores (set_names vals s))
  end.

(** One step of the world; [None] when the event cannot happen here
    (the clock would run backwards, or the timer is absent or not due). *)
Definition step (w : World) (e : Event) : option World :=
  if Qle_bool (clock w) (time_of e)
  then mkWorld (time_of e) <$> handle e (app w)
  else None.

Fixpoint run (w : World) (es : list Event) : option World :=
  match es with
  | [] => Some w
  | e :: es' =>
      match step w e with
      | Some w' => run w' es'
      | None => None
      end
  end.

(** The page after the module body has run at time [t0]: runners loaded
    with the draws [rand], names and records read from the store, the
    score board filled once. *)
Definition init (t0 : Q) (rand : nat → Q) (storedNames : option (list string))
           (storedPBs : option (gmap string Q)) : World :=
  mkWorld t0
    (updateScores
       (mkState (loadRunners rand) false 0 t0 false (loadNames storedNames)
                (loadPBs storedPBs) [] [] "" false 0 [] false
                (0, 10, -18)%Q (0, 1.2, 20)%Q)).

(** The phase of the specification read off the program state, which has
    no phase variable: running while [raceStarted]; otherwise counting
    down while a countdown timer is pending; otherwise finished when all
    runners have finished. *)
Inductive Phase := Idle | Counting | Running | Finished.

Definition is_countdown_timer (t : Timer) : bool :=
  match task t with THide _ | TStep _ => true | TFlashOff => false end.

Definition phase (s : State) : Phase :=
  if raceStarted s then Running
  else if existsb is_countdown_timer (timers s) then Counting
  else if forallb finished (runners s) then Finished
  else Idle.

End Engine.

(** * Vocabulary of the properties and sample states *)

(** [m] is a least element of [l]. *)
Definition is_min (m : Q) (l : list Q) : Prop :=
  m ∈ l ∧ ∀ y, y ∈ l → (m <= y)%Q.

(** A pack that has spread: lane 1 still at the line, lane 2 ten metres
    ahead. *)
Definition spreadPack : list Runner :=
  [ mkRunner "lane1" 1 "#ef4444" (-4.5) 0 0 7 false None 2.2;
    mkRunner "lane2" 2 "#22c55e" (-1.5) 0 10 8 false None 2.2 ]%Q.

(** A running race with that pack. *)
Definition spreadState : State :=
  mkState spreadPack true 0 0 true defaultNames ∅ [] [] "" false 0 [] false
          (0, 10, -18)%Q (0, 1.2, 20)%Q.

(** What the loop body (lines 98-107) makes of an unfinished runner [r];
    [advanceRunner] stores this record at the runner's index. *)
Definition advanced (elapsed dt : Q) (r : Runner) : Runner :=
  let z := (posZ r + speed r * dt)%Q in
  if JS.geb z finishZ
  then mkRunner (id r) (lane r) (color r) (posX r) (posY r) finishZ
                (speed r) true (Some elapsed) 0.6%Q
  else set_posZ z r.

(** A run of frames, each with its clock reading and aspect ratio. *)
Definition renderFrames (tanHalfFov : Q) (s : State) (fs : list (Q * Q)) : State :=
  foldl (λ s f, animationLoop tanHalfFov f.1 f.2 s) s fs.

(** Lane 1 after finishing in 12.5 s. *)
Definition lane1Done : Runner :=
  (mkRunner "lane1" 1 "#ef4444" (-4.5) 0 100 8 true (Some 12.5) 0.6)%Q.

(** A race under way since 1000 ms, last frame at 13500 ms: lane 1 has
    finished, lane 2 is 20 cm from the line. *)
Definition midRace : State :=
  mkState
    [ lane1Done;
      mkRunner "lane2" 2 "#22c55e" (-1.5) 0 99.8 7 false None 2.2 ]%Q
    true 1000 13500 true defaultNames ∅ [] [] "GO!" false 12.5 [] false
    (0, 10, -18)%Q (0, 1.2, 20)%Q.

(** Values returned by [Math.random()] for lanes 1 to 4: 0, 0.25, 0.5 and
    0.75, which give the speeds 6.5, 7.05, 7.6 and 8.15 m/s. *)
Definition draws0 (i : nat) : Q :=
  match i with
  | 0%nat => 0
  | 1%nat => 0.25
  | 2%nat => 0.5
  | _ => 0.75
  end.

(** The page loaded at time 0 with those draws and an empty store. *)
Definition page0 : World := init 0 draws0 None None.

(** The eight timer events of one countdown started at time [t]: each of
    the four labels is hidden after 700 ms and followed 120 ms later by
    the next step; the last step finds no label left and resolves. *)
Definition countdownEvents (t : Q) : list Event :=
  [ Timeout (t + 700) 0; Timeout (t + 820) 0;
    Timeout (t + 1520) 0; Timeout (t + 1640) 0;
    Timeout (t + 2340) 0; Timeout (t + 2460) 0;
    Timeout (t + 3160) 0; Timeout (t + 3280) 0 ]%Q.

(** [n] frames 50 ms apart after time [t], in a 3:2 viewport. *)
Definition frameEvents (t : Q) (n : nat) : list Event :=
  (λ i : nat, Frame (t + 50 * inject_Z (Z.of_nat i)) 1.5)%Q <$> seq 1 n.

(** [a] and [b] both have a finish time and [a]'s is not the larger. *)
Definition time_le (a b : Runner) : Prop :=
  match tFinish a, tFinish b with
  | Some ta, Some tb => (ta <= tb)%Q
  | _, _ => False
  end.

(** [r.tFinish == null], and its negation. *)
Definition unfinished (r : Runner) : Prop := tFinish r = None.

Definition timed (r : Runner) : Prop := is_Some (tFinish r).

#[local] Instance unfinished_dec r : Decision (unfinished r).
Proof. unfold unfinished. destruct (tFinish r); [right|left]; done. Defined.

#[local] Instance timed_dec r : Decision (timed r).
Proof. unfold timed. apply _. Defined.

(** The table after the loop of [finalizePBs] over [rs]. *)
Definition mergePBs (ns : list string) (m : gmap string Q) (rs : list Runner)
  : gmap string Q :=
  foldl (finalizePB ns) m rs.

(** [finalizePBs] has nothing left to write for [r]: the runner has no
    time, or the table holds under its name a time no larger than the
    runner's, or the name reads as an inherited property. *)
Definition covered (ns : list string) (m : gmap string Q) (r : Runner) : Prop :=
  match tFinish r with
  | None => True
  | Some t =>
      match JS.get m (displayName ns r) with
      | JS.VUndefined => False
      | JS.VNumber p => (p <= t)%Q
      | JS.VObject => True
      end
  end.

(** No runner's name reads as an inherited property of the table, so
    every row of the score board can be formatted and [updateScores]
    returns. *)
Definition board_safe (s : State) : Prop :=
  Forall (λ r, JS.get (pbs s) (displayName (names s) r) ≠ JS.VObject) (runners s).

(** A name that is not an inherited property name. *)
Definition ordinary (n : string) : Prop := n ∉ JS.objectPrototypeKeys.

(** The names saved by the event, if it saves names, are ordinary. *)
Definition saves_ordinary (e : Event) : Prop :=
  match e with
  | SaveNames _ vals => Forall ordinary vals
  | _ => True
  end.

(** [x] lies between [a] and [b], whichever is the larger. *)
Definition between (a b x : Q) : Prop := (a <= x <= b)%Q ∨ (b <= x <= a)%Q.

(** The scenario of the specification: Ana runs 12.50 s, then 13.00 s,
    then 11.90 s; her record is 12.50, stays 12.50, becomes 11.90. *)
Definition ana (t : Q) : Runner :=
  mkRunner "lane1" 1 "#ef4444" (-4.5) 0 100 8 true (Some t) 0.6.

(** The clock never runs behind the time of the last frame. *)
Definition clock_ok (w : World) : Prop := (lastT (app w) <= clock w)%Q.

(** The three ways of telling that a runner has finished agree. *)
Definition finish_consistent (r : Runner) : Prop :=
  (finished r = true ↔ tFinish r ≠ None)
  ∧ (tFinish r ≠ None ↔ (finishZ <= posZ r)%Q)
  ∧ (finished r = true ↔ (finishZ <= posZ r)%Q).

(** A start, the whole countdown and three frames of racing. *)
Definition raceDemo : option World :=
  run 0.6008606 page0 ([ClickStart 1000] ++ countdownEvents 1000 ++ frameEvents 4280 3).

(** The runner is between the two lines, on the finish line once
    finished, and does not run backwards. *)
Definition on_track (r : Runner) : Prop :=
  (startZ <= posZ r <= finishZ)%Q
  ∧ (finished r = true → posZ r = finishZ)
  ∧ (0 <= speed r)%Q.

(** The runner as [resetRace] leaves it. *)
Definition at_start (r : Runner) : Prop :=
  posZ r = startZ ∧ finished r = false ∧ tFinish r = None.

(** What one frame of a running race makes of a runner: finished
    runners are skipped, the others advanced. *)
Definition frameStep (elapsed dt : Q) (r : Runner) : Runner :=
  if finished r then r else advanced elapsed dt r.

(** The variables and page elements the loop over the runners never
    writes. *)
Definition loop_untouched (s : State)
  : bool * Q * Q * bool * list string * gmap string Q * list Cue
    * string * bool * Q * Vec3 * Vec3 :=
  (raceStarted s, tStart s, lastT s, audio s, names s, pbs s, cues s,
   countdownText s, countdownVisible s, timerText s, camPos s, camLookAt s).

(** The clock readings at which the two timers of each countdown label
    fire, in order: the hide timer and then the step timer. *)
Definition FireTimes : Type := list (Q * Q).

(** Each hide timer fires no earlier than [ms] after the step that set
    it, each step timer no earlier than 120 ms after the hide. *)
Fixpoint fire_times_ok (ms now : Q) (ts : FireTimes) : Prop :=
  match ts with
  | [] => True
  | (th, tn) :: ts' =>
      (now + ms <= th)%Q ∧ (th + 120 <= tn)%Q ∧ fire_times_ok ms tn ts'
  end.

(** The time of the last step, or [now] when nothing fires. *)
Fixpoint last_fire (now : Q) (ts : FireTimes) : Q :=
  match ts with
  | [] => now
  | (_, tn) :: ts' => last_fire tn ts'
  end.

(** The page with no timer pending but those of one countdown: the
    pending timer is always the first, and it is fired at each reading
    in turn. *)
Fixpoint fireTimers (tanHalfFov : Q) (s : State) (ts : FireTimes) : option State :=
  match ts with
  | [] => Some s
  | (th, tn) :: ts' =>
      match handle tanHalfFov (Timeout th 0) s with
      | Some s1 =>
          match handle tanHalfFov (Timeout tn 0) s1 with
          | Some s2 => fireTimers tanHalfFov s2 ts'
          | None => None
          end
      | None => None
      end
  end.

(** The race under way, with a record of 13 s already on file for the
    runner of lane 2. *)
Definition pbDemo : State := set_pbs (<["Lane 2" := 13%Q]> ∅) midRace.

(** What a row of the score board reads of a runner: the lane and the
    finish time. *)
Definition boardKey (r : Runner) : nat * option Q := (lane r, tFinish r).

(** The comparator of [updateScores] on those. *)
Definition compareKey (a b : nat * option Q) : Q :=
  match a.2, b.2 with
  | None, None => 0
  | None, Some _ => 1
  | Some _, None => -1
  | Some ta, Some tb => ta - tb
  end.

(** The rows [updateScores] would write now. *)
Definition board (s : State) : list ScoreRow :=
  imap (scoreRow (names s) (pbs s)) (rank (runners s)).

(** The page shows those rows. *)
Definition board_fresh (s : State) : Prop := scores s = board s.

(** The variables the score board is computed from, and the board. *)
Definition board_inputs (s : State)
  : list Runner * list string * gmap string Q * list ScoreRow :=
  (runners s, names s, pbs s, scores s).

(** The page just loaded, with the last step of a countdown pending. *)
Definition lastStepPending : State :=
  setTimeout 4160 120 (TStep (mkCountdown ["3"; "2"; "1"; "GO!"] 700 4)) (app page0).

(** The half width of the track with its margin, [halfWidth] of
    [fitCameraToTrack]. *)
Definition halfWidth : Q := ((trackWidth / 2) * 1.1)%Q.

(** How many timers that remove the finish flash are pending. *)
Definition flashCount (s : State) : nat :=
  length (filter (λ t, is_flash_timer t = true) (timers s)).

(** At most one such timer is pending, and one is whenever the flash is
    showing. *)
Definition flash_ok (s : State) : Prop :=
  (flashCount s <= 1)%nat ∧ (finishFlash s = true → flashCount s = 1%nat).

(** ** The settings panel (lines 63-67) *)

(** [$settingsPanel.style.display] and the values of the four name
    inputs. *)
Record Panel := mkPanel {
  panelDisplay : string;
  inputValues : list string
}.

(** The click handler of the settings button: the panel is shown when
    its display is "none" or not set and hidden otherwise, and every
    input is filled with the name of its lane. *)
Definition settingsClick (ns : list string) (p : Panel) : Panel :=
  mkPanel
    (if String.eqb (panelDisplay p) "none" || String.eqb (panelDisplay p) ""
     then "block" else "none")
    (imap (λ i _, JS.or_string (ns !! i) ("Lane " +:+ pretty (i + 1)%nat))
          (inputValues p)).

(** The race clock makes sense: a running race started no later than
    now, the time on display is not negative, and no finish time is. *)
Definition times_ok (w : World) : Prop :=
  (raceStarted (app w) = true → (tStart (app w) <= clock w)%Q)
  ∧ (0 <= timerText (app w))%Q
  ∧ Forall (λ r, ∀ t, tFinish r = Some t → (0 <= t)%Q) (runners (app w)).

(** [r] has a finish time equal, as a number, to [t]. *)
Definition has_time (t : Q) (r : Runner) : Prop :=
  match tFinish r with
  | Some t' => Qeq_bool t' t = true
  | None => False
  end.

#[local] Instance has_time_dec t r : Decision (has_time t r).
Proof. unfold has_time. destruct (tFinish r); apply _. Defined.

(** * Properties *)

(** ** Numbers *)

Lemma geb_true x y : JS.geb x y = true ↔ (y <= x)%Q.
Proof. unfold JS.geb. apply Qle_bool_iff. Qed.

Lemma geb_false x y : JS.geb x y = false ↔ (x < y)%Q.
Proof.
  unfold JS.geb. split; intros H.
  - apply Qnot_le_lt. intros Hle. apply Qle_bool_iff in Hle. congruence.
  - destruct (Qle_bool y x) eqn:E; [|done].
    apply Qle_bool_iff in E. lra.
Qed.

Lemma ltb_true x y : JS.ltb x y = true ↔ (x < y)%Q.
Proof.
  unfold JS.ltb. rewrite negb_true_iff. apply (geb_false x y).
Qed.

Lemma ltb_false x y : JS.ltb x y = false ↔ (y <= x)%Q.
Proof.
  unfold JS.ltb. rewrite negb_false_iff. apply Qle_bool_iff.
Qed.

Lemma clamp_bounds v lo hi : (lo <= hi)%Q → (lo <= JS.clamp v lo hi <= hi)%Q.
Proof.
  intros Hlh. unfold JS.clamp. split.
  - apply Q.le_max_l.
  - apply Q.max_lub; [done|]. apply Q.le_min_l.
Qed.

(** The clamped time step of a frame is not negative when the clock has
    not gone backwards. *)
Lemma dt_nonneg (last now : Q) :
  (last <= now)%Q → (0 <= Qmin 0.05 ((now - last) / 1000))%Q.
Proof.
  intros H. apply Q.min_glb; [lra|].
  unfold Qdiv. apply Qmult_le_0_compat; [lra|].
  apply Qinv_le_0_compat. lra.
Qed.

(** [Qmin] returns one of its arguments, not merely a number equal to it. *)
Lemma Qmin_cases x y :
  (Qmin x y = x ∧ (x <= y)%Q) ∨ (Qmin x y = y ∧ (y <= x)%Q).
Proof.
  unfold Qmin, GenericMinMax.gmin.
  destruct (x ?= y)%Q eqn:E.
  - left. split; [done|]. apply Qeq_alt in E. lra.
  - left. split; [done|]. apply Qlt_alt in E. lra.
  - right. split; [done|]. apply Qgt_alt in E. lra.
Qed.

Lemma Math_min_is_min x xs : is_min (JS.Math_min x xs) (x :: xs).
Proof.
  unfold JS.Math_min. revert x.
  induction xs as [|y ys IH]; intros x; simpl.
  - split; [apply elem_of_cons; by left|].
    intros y Hy. apply list_elem_of_singleton in Hy. subst. lra.
  - destruct (IH (Qmin x y)) as [Hin Hle]. split.
    + apply elem_of_cons in Hin as [Hin|Hin].
      * rewrite Hin. rewrite !elem_of_cons.
        destruct (Qmin_cases x y) as [[-> _]|[-> _]]; auto.
      * rewrite !elem_of_cons. auto.
    + intros z Hz.
      assert (Hm : (foldl Qmin (Qmin x y) ys <= Qmin x y)%Q).
      { apply Hle, elem_of_cons. by left. }
      apply elem_of_cons in Hz as [->|Hz].
      * pose proof (Q.le_min_l x y). lra.
      * apply elem_of_cons in Hz as [->|Hz].
        -- pose proof (Q.le_min_r x y). lra.
        -- apply Hle, elem_of_cons. by right.
Qed.

(** ** Camera framing *)

Section CameraFacts.
Variable tanHalfFov : Q.

Lemma cameraDistance_bounds aspect :
  (7 <= cameraDistance tanHalfFov aspect <= 16)%Q.
Proof. unfold cameraDistance. apply clamp_bounds. lra. Qed.

Lemma focusZ_is_min avgZ rs :
  rs ≠ [] → is_min (focusZ avgZ rs) (posZ <$> rs).
Proof.
  destruct rs as [|r rs']; [done|]. intros _. simpl.
  apply Math_min_is_min.
Qed.

Lemma camLookAt_fit aspect avgZ s :
  camLookAt (fitCameraToTrack tanHalfFov aspect avgZ s)
  = (0, 1.6, focusZ avgZ (runners s) + 2)%Q.
Proof. reflexivity. Qed.

End CameraFacts.

(** C9.  For every aspect ratio between 0.3 and 4.0 the camera distance
    computed by [fitCameraToTrack] lies in the clamp range from 7 to 16,
    whatever the value of the tangent of the half field of view. *)
Theorem camera_distance_within_clamp_range (tanHalfFov aspect : Q) :
  (0.3 <= aspect <= 4)%Q →
  (7 <= cameraDistance tanHalfFov aspect <= 16)%Q.
Proof. intros _. apply cameraDistance_bounds. Qed.

Lemma camera_distance_within_clamp_range_witness :
  (0.3 <= 1.5 <= 4)%Q ∧ (7 <= cameraDistance 0.6008606 1.5 <= 16)%Q.
Proof.
  split; [lra|]. apply (camera_distance_within_clamp_range 0.6008606 1.5). lra.
Defined.

(** At the ends of the aspect range the clamp is what bounds the distance:
    a narrow viewport would ask for more than 16, a wide one for less
    than 7. *)
Example cameraDistance_narrow : (cameraDistance 0.6008606 0.3 == 16)%Q.
Proof. reflexivity. Qed.

Example cameraDistance_wide : (cameraDistance 0.6008606 4 == 7)%Q.
Proof. reflexivity. Qed.

(** C8.  With at least one runner, the focus coordinate of the camera
    framing is the least [position.z] of the runners: it is the position
    of some runner and no runner is behind it; the average passed in by
    the render loop plays no role, and the look-at target is two metres
    ahead of that focus. *)
Theorem camera_focus_is_rearmost_runner (tanHalfFov aspect avgZ : Q) (s : State) :
  runners s ≠ [] →
  is_min (focusZ avgZ (runners s)) (posZ <$> runners s)
  ∧ focusZ avgZ (runners s) = focusZ (averageZ (runners s)) (runners s)
  ∧ camLookAt (fitCameraToTrack tanHalfFov aspect avgZ s)
    = (0, 1.6, focusZ avgZ (runners s) + 2)%Q.
Proof.
  intros Hne. split; [by apply focusZ_is_min|]. split; [|reflexivity].
  destruct (runners s); [done|reflexivity].
Qed.

Lemma camera_focus_is_rearmost_runner_witness :
  runners spreadState ≠ []
  ∧ is_min (focusZ 5 (runners spreadState)) (posZ <$> runners spreadState).
Proof.
  assert (H : runners spreadState ≠ []) by (simpl; discriminate).
  split; [exact H|].
  exact (proj1 (camera_focus_is_rearmost_runner 0.6008606 1.5 5 spreadState H)).
Defined.

Example focus_differs_from_average :
  (averageZ spreadPack == 5)%Q ∧ focusZ (averageZ spreadPack) spreadPack = 0%Q.
Proof. split; reflexivity. Qed.

(** ** The render loop, runner by runner *)

Section LoopFacts.
Variables (now elapsed dt : Q).

(** The loop body replaces at most the runner at its own index, and
    only an unfinished one. *)
Lemma advanceRunner_runners s k :
  runners (advanceRunner now elapsed dt s k) = runners s
  ∨ ∃ r, runners s !! k = Some r ∧ finished r = false
         ∧ runners (advanceRunner now elapsed dt s k)
           = <[k := advanced elapsed dt r]> (runners s).
Proof.
  unfold advanceRunner.
  destruct (runners s !! k) as [r|] eqn:Hk; [|by left].
  destruct (finished r) eqn:Hf; [by left|].
  right. exists r. split; [done|]. split; [done|].
  unfold advanced. destruct (JS.geb _ _); reflexivity.
Qed.

Lemma advanceRunner_length s k :
  length (runners (advanceRunner now elapsed dt s k)) = length (runners s).
Proof.
  destruct (advanceRunner_runners s k) as [->|(r & _ & _ & ->)]; [done|].
  apply length_insert.
Qed.

(** A relation between a runner before and after that every single
    replacement respects is respected by the whole loop. *)
Lemma advanceLoop_rel (R : Runner → Runner → Prop) :
  (∀ r, R r r) →
  (∀ a b c, R a b → R b c → R a c) →
  (∀ r, finished r = false → R r (advanced elapsed dt r)) →
  ∀ ks s j r, runners s !! j = Some r →
    ∃ r', runners (foldl (advanceRunner now elapsed dt) s ks) !! j = Some r'
          ∧ R r r'.
Proof.
  intros Hrefl Htrans Hadv ks.
  induction ks as [|k ks IH]; intros s j r Hj; simpl.
  - eauto.
  - destruct (advanceRunner_runners s k) as [Heq|(r0 & Hk & Hf & Heq)].
    + apply IH. by rewrite Heq.
    + destruct (decide (j = k)) as [->|Hne].
      * assert (r0 = r) as -> by congruence.
        destruct (IH (advanceRunner now elapsed dt s k) k (advanced elapsed dt r))
          as (r' & Hr' & HR).
        { rewrite Heq. apply list_lookup_insert_eq.
          by eapply lookup_lt_Some. }
        eauto.
      * apply IH. rewrite Heq. by rewrite list_lookup_insert_ne.
Qed.

(** Every runner satisfying [P] after each replacement satisfies it
    after the loop. *)
Lemma advanceLoop_Forall (P : Runner → Prop) :
  (∀ r, P r → finished r = false → P (advanced elapsed dt r)) →
  ∀ ks s, Forall P (runners s) →
    Forall P (runners (foldl (advanceRunner now elapsed dt) s ks)).
Proof.
  intros Hadv ks. induction ks as [|k ks IH]; intros s HP; simpl; [done|].
  apply IH.
  destruct (advanceRunner_runners s k) as [->|(r & Hk & Hf & ->)]; [done|].
  apply Forall_insert; [done|]. apply Hadv; [|done].
  by eapply Forall_lookup_1.
Qed.

End LoopFacts.

Section FrameFacts.
Variable tanHalfFov : Q.

(** The runners after a frame: untouched unless the race is on, and
    then the result of the loop; [finalizePBs] does not touch them. *)
Lemma animationLoop_runners now aspect s :
  runners (animationLoop tanHalfFov now aspect s)
  = if raceStarted s
    then runners (foldl (advanceRunner now ((now - tStart s) / 1000)
                                       (Qmin 0.05 ((now - lastT s) / 1000)))
                        (set_timerText ((now - tStart s) / 1000)
                           (fitCameraToTrack tanHalfFov aspect
                              (averageZ (runners s)) (set_lastT now s)))
                        (seq 0 (length (runners s))))
    else runners s.
Proof.
  unfold animationLoop. simpl.
  destruct (raceStarted s); [|reflexivity].
  match goal with |- context [forallb finished ?l] => destruct (forallb finished l) end;
    reflexivity.
Qed.

Lemma animationLoop_finished_frozen now aspect s k r :
  runners s !! k = Some r → finished r = true →
  runners (animationLoop tanHalfFov now aspect s) !! k = Some r.
Proof.
  intros Hk Hf. rewrite animationLoop_runners.
  destruct (raceStarted s); [|done].
  set (s1 := set_timerText _ _).
  set (R := λ a b : Runner, finished a = true → b = a).
  assert (Hrefl : ∀ a, R a a) by done.
  assert (Htrans : ∀ a b c, R a b → R b c → R a c).
  { intros a b c Hab Hbc Ha. rewrite <- (Hab Ha). apply Hbc.
    by rewrite (Hab Ha). }
  destruct (advanceLoop_rel now ((now - tStart s) / 1000)
              (Qmin 0.05 ((now - lastT s) / 1000)) R Hrefl Htrans
              ltac:(intros r0 Hr0 Ht; congruence)
              (seq 0 (length (runners s))) s1 k r Hk) as (r' & Hr' & HR).
  rewrite Hr'. f_equal. by apply HR.
Qed.

End FrameFacts.

(** C5.  A runner whose [finished] flag is set is left as it is by every
    later frame of the render loop: same position, same flag, same finish
    time (the whole record is unchanged). *)
Theorem finished_runner_unchanged_by_frames
    (tanHalfFov : Q) (s : State) (fs : list (Q * Q)) (k : nat) (r : Runner) :
  runners s !! k = Some r →
  finished r = true →
  runners (renderFrames tanHalfFov s fs) !! k = Some r.
Proof.
  revert s. induction fs as [|[now aspect] fs IH]; intros s Hk Hf; simpl.
  - exact Hk.
  - apply IH; [|done]. by apply animationLoop_finished_frozen.
Qed.

Lemma finished_runner_unchanged_by_frames_witness :
  runners midRace !! 0%nat = Some lane1Done
  ∧ finished lane1Done = true
  ∧ runners (renderFrames 0.6008606 midRace [(13520, 1.5); (13540, 1.5)]%Q) !! 0%nat
    = Some lane1Done.
Proof.
  split; [reflexivity|]. split; [reflexivity|].
  apply (finished_runner_unchanged_by_frames 0.6008606 midRace
           [(13520, 1.5); (13540, 1.5)]%Q 0 lane1Done); reflexivity.
Defined.

(** The other runner moves in the first of those frames and crosses the
    line in the second: it is put on the line, flagged, timed with the
    elapsed time of that frame, and slowed down; the race is over and
    both times enter the table of personal bests. *)
Example unfinished_runner_moves_then_finishes :
  (posZ <$> runners (renderFrames 0.6008606 midRace [(13520, 1.5)]%Q))
  = [100; 99.8 + 7 * Qmin 0.05 ((13520 - 13500) / 1000)]%Q
  ∧ runners (renderFrames 0.6008606 midRace [(13520, 1.5); (13540, 1.5)]%Q) !! 1%nat
    = Some (mkRunner "lane2" 2 "#22c55e" (-1.5) 0 100 7 true
                     (Some ((13540 - 1000) / 1000)) 0.6)%Q
  ∧ raceStarted (renderFrames 0.6008606 midRace [(13520, 1.5); (13540, 1.5)]%Q) = false
  ∧ pbs (renderFrames 0.6008606 midRace [(13520, 1.5); (13540, 1.5)]%Q)
    = <["Lane 2" := ((13540 - 1000) / 1000)%Q]> (<["Lane 1" := 12.5%Q]> ∅).
Proof. repeat split; vm_compute; reflexivity. Qed.

(** ** Start *)

Lemma phase_Running s : phase s = Running ↔ raceStarted s = true.
Proof.
  unfold phase. destruct (raceStarted s); [done|].
  split; [|done].
  destruct (existsb _ _); [done|]. destruct (forallb _ _); done.
Qed.

(** C2, as the program has it.  While the race is running a start
    request is a no-op: no countdown is started and the whole state
    (phase, start time, runners, pending timers, cues) is unchanged. *)
Theorem start_is_noop_while_running (tanHalfFov now : Q) (s : State) :
  phase s = Running →
  startRace now s = s
  ∧ handle tanHalfFov (ClickStart now) s = Some s.
Proof.
  intros Hp. apply phase_Running in Hp.
  unfold handle, startRace. by rewrite Hp.
Qed.

Lemma start_is_noop_while_running_witness :
  phase midRace = Running
  ∧ startRace 13600 midRace = midRace
  ∧ handle 0.6008606 (ClickStart 13600) midRace = Some midRace.
Proof.
  assert (H : phase midRace = Running) by reflexivity.
  split; [exact H|].
  exact (start_is_noop_while_running 0.6008606 13600 midRace H).
Defined.

(** C2, as the specification has it, fails during the countdown: a second
    click on Start 300 ms after the first finds [raceStarted] still false
    and starts a second countdown, with its own beep and its own timer. *)
Lemma start_during_countdown_starts_another :
  ∃ w1 w2,
    run 0.6008606 page0 [ClickStart 1000] = Some w1
    ∧ phase (app w1) = Counting
    ∧ step 0.6008606 w1 (ClickStart 1300) = Some w2
    ∧ cues (app w1) = [CueBeep "3"]
    ∧ cues (app w2) = [CueBeep "3"; CueBeep "3"]
    ∧ length (timers (app w1)) = 1%nat
    ∧ length (timers (app w2)) = 2%nat
    ∧ app w2 ≠ app w1.
Proof.
  eexists. eexists.
  split; [vm_compute; reflexivity|].
  split; [reflexivity|].
  split; [vm_compute; reflexivity|].
  repeat (split; [reflexivity|]).
  intros H. apply (f_equal cues) in H. discriminate H.
Qed.

(** ** Ranking *)

Section RankFacts.

Abbreviation insert := (JS.insert compareFn).

Lemma insert_Permutation x l : insert x l ≡ₚ x :: l.
Proof.
  induction l as [|y l IH]; simpl; [done|].
  destruct (Qle_bool _ _); [done|].
  rewrite IH. apply Permutation_swap.
Qed.

Lemma rank_Permutation rs : rank rs ≡ₚ rs.
Proof.
  unfold rank. induction rs as [|x rs IH]; simpl; [done|].
  by rewrite insert_Permutation, IH.
Qed.

(** An unfinished runner goes behind every timed runner and in front of
    the unfinished ones already placed, which came later in the input. *)
Lemma insert_unfinished x fin unf :
  unfinished x → Forall timed fin → Forall unfinished unf →
  insert x (fin ++ unf) = fin ++ x :: unf.
Proof.
  intros Hx Hfin Hunf. induction Hfin as [|y fin [ty Hy] _ IH]; simpl.
  - destruct Hunf as [|y unf Hy _]; simpl; [done|].
    unfold compareFn. rewrite Hx, Hy. reflexivity.
  - unfold compareFn at 1. rewrite Hx, Hy. simpl. by rewrite IH.
Qed.

(** A timed runner is placed among the timed ones. *)
Lemma insert_timed x fin unf :
  timed x → Forall unfinished unf →
  insert x (fin ++ unf) = insert x fin ++ unf.
Proof.
  intros [tx Hx] Hunf. induction fin as [|y fin IH]; simpl.
  - destruct Hunf as [|y unf Hy _]; simpl; [done|].
    unfold compareFn. rewrite Hx, Hy. reflexivity.
  - destruct (Qle_bool _ _); [done|]. by rewrite IH.
Qed.

Lemma insert_timed_Forall x l : timed x → Forall timed l → Forall timed (insert x l).
Proof.
  intros Hx Hl. rewrite insert_Permutation. by constructor.
Qed.

Lemma insert_sorted x l :
  timed x → Forall timed l →
  StronglySorted time_le l → StronglySorted time_le (insert x l).
Proof.
  intros [tx Hx] Htl Hs. induction Hs as [|y l Hs IH Hy]; simpl.
  - repeat constructor.
  - apply Forall_cons in Htl as [[ty Hty] Htl].
    unfold compareFn at 1. rewrite Hx, Hty.
    destruct (Qle_bool (tx - ty) 0) eqn:E.
    + apply Qle_bool_iff in E.
      constructor; [by constructor|].
      constructor.
      * unfold time_le. rewrite Hx, Hty. lra.
      * eapply Forall_impl; [exact Hy|]. intros z Hz.
        unfold time_le in *. rewrite Hx. rewrite Hty in Hz.
        destruct (tFinish z); [lra|done].
    + assert (Hlt : (ty < tx)%Q).
      { apply Qnot_le_lt. intros Hle.
        assert (Qle_bool (tx - ty) 0 = true) by (apply Qle_bool_iff; lra).
        congruence. }
      constructor; [by apply IH|].
      rewrite insert_Permutation. constructor; [|done].
      unfold time_le. rewrite Hty, Hx. lra.
Qed.

(** The ranking is the timed runners in order of time, followed by the
    unfinished runners in their input order. *)
Lemma rank_split rs :
  rank rs = rank (filter timed rs) ++ filter unfinished rs
  ∧ Forall timed (rank (filter timed rs))
  ∧ StronglySorted time_le (rank (filter timed rs)).
Proof.
  unfold rank. induction rs as [|x rs (IH & Ht & Hs)]; simpl.
  - repeat split; constructor.
  - assert (Hunf : Forall unfinished (filter unfinished rs))
      by (apply Forall_forall; intros z Hz; by apply list_elem_of_filter in Hz as [? _]).
    rewrite !filter_cons.
    destruct (decide (timed x)) as [Hx|Hx].
    + destruct (decide (unfinished x)) as [Hx'|_].
      { destruct Hx as [? Hx]. unfold unfinished in Hx'. congruence. }
      simpl. split; [|split].
      * rewrite IH. by apply insert_timed.
      * by apply insert_timed_Forall.
      * by apply insert_sorted.
    + destruct (decide (unfinished x)) as [Hx'|Hx'].
      * split; [|done]. rewrite IH. by apply insert_unfinished.
      * exfalso. apply Hx. unfold timed, unfinished in *.
        destruct (tFinish x); [by eexists|done].
Qed.

End RankFacts.

(** C6.  The ranking of any list of runners consists of the runners that
    have a finish time, in ascending order of that time, followed by the
    runners without one, which keep the order they had in the input (lane
    order); nobody is lost or duplicated. *)
Theorem rank_sorted_then_unfinished_in_lane_order (rs : list Runner) :
  ∃ fin,
    rank rs = fin ++ filter unfinished rs
    ∧ fin ≡ₚ filter timed rs
    ∧ Forall timed fin
    ∧ StronglySorted time_le fin.
Proof.
  destruct (rank_split rs) as (Heq & Ht & Hs).
  exists (rank (filter timed rs)).
  split; [done|]. split; [apply rank_Permutation|]. done.
Qed.

(** The scenario of the specification: speeds 7.0, 7.5, 8.0 and 6.8 m/s
    give the times 100/7, 100/7.5, 12.5 and 100/6.8 s, and the ranking by
    lane is 3, 2, 1, 4. *)
Example rank_scenario :
  lane <$> rank [ mkRunner "lane1" 1 "" 0 0 100 7 true (Some (100 / 7)) 0.6;
                  mkRunner "lane2" 2 "" 0 0 100 7.5 true (Some (100 / 7.5)) 0.6;
                  mkRunner "lane3" 3 "" 0 0 100 8 true (Some 12.5) 0.6;
                  mkRunner "lane4" 4 "" 0 0 100 6.8 true (Some (100 / 6.8)) 0.6 ]%Q
  = [3; 2; 1; 4]%nat.
Proof. reflexivity. Qed.

(** While lanes 2 and 4 are still running they stay behind, lane 2 first. *)
Example rank_partial :
  lane <$> rank [ mkRunner "lane1" 1 "" 0 0 100 7 true (Some 14) 0.6;
                  mkRunner "lane2" 2 "" 0 0 90 7.5 false None 2.2;
                  mkRunner "lane3" 3 "" 0 0 100 8 true (Some 12.5) 0.6;
                  mkRunner "lane4" 4 "" 0 0 80 6.8 false None 2.2 ]%Q
  = [3; 1; 2; 4]%nat.
Proof. reflexivity. Qed.

(** ** Personal bests *)

Section PBFacts.
Variable ns : list string.

Lemma get_number m k x : m !! k = Some x → JS.get m k = JS.VNumber x.
Proof. intros H. unfold JS.get. by rewrite H. Qed.

Lemma get_number_inv m k x : JS.get m k = JS.VNumber x → m !! k = Some x.
Proof.
  unfold JS.get. destruct (m !! k); [congruence|]. by destruct (bool_decide _).
Qed.

Lemma get_undefined_inv m k :
  JS.get m k = JS.VUndefined → m !! k = None ∧ k ∉ JS.objectPrototypeKeys.
Proof.
  unfold JS.get. destruct (m !! k); [done|].
  destruct (bool_decide_reflect (k ∈ JS.objectPrototypeKeys)); done.
Qed.

Lemma get_object_inv m k :
  JS.get m k = JS.VObject → m !! k = None ∧ k ∈ JS.objectPrototypeKeys.
Proof.
  unfold JS.get. destruct (m !! k); [done|].
  destruct (bool_decide_reflect (k ∈ JS.objectPrototypeKeys)); done.
Qed.

Lemma get_insert_ne m k k' x : k ≠ k' → JS.get (<[k := x]> m) k' = JS.get m k'.
Proof. intros H. unfold JS.get. by rewrite lookup_insert_ne. Qed.

Lemma get_insert_eq m k x : JS.get (<[k := x]> m) k = JS.VNumber x.
Proof. apply get_number, lookup_insert_eq. Qed.

(** The runner's time is written under its name, or nothing changes;
    it is written only over no record or a larger one. *)
Lemma finalizePB_cases m r :
  finalizePB ns m r = m
  ∨ ∃ t, tFinish r = Some t
         ∧ finalizePB ns m r = <[displayName ns r := t]> m
         ∧ (JS.get m (displayName ns r) = JS.VUndefined
            ∨ ∃ prev, JS.get m (displayName ns r) = JS.VNumber prev ∧ (t < prev)%Q).
Proof.
  unfold finalizePB. destruct (tFinish r) as [t|]; [|by left].
  destruct (JS.get m (displayName ns r)) as [|prev|] eqn:Hg.
  - right. exists t. split; [done|]. split; [done|]. by left.
  - destruct (JS.ltb t prev) eqn:Hlt; [|by left].
    apply ltb_true in Hlt. right. exists t. split; [done|]. split; [done|].
    right. by exists prev.
  - by left.
Qed.

(** Stored times only go down, and no name is ever dropped. *)
Lemma finalizePB_lookup_le m r k p :
  m !! k = Some p →
  ∃ p', finalizePB ns m r !! k = Some p' ∧ (p' <= p)%Q.
Proof.
  intros Hk.
  destruct (finalizePB_cases m r) as [->|(t & _ & -> & Hw)].
  { exists p. split; [done|lra]. }
  destruct (decide (displayName ns r = k)) as [<-|Hne].
  - exists t. rewrite lookup_insert_eq. split; [done|].
    rewrite (get_number _ _ _ Hk) in Hw.
    destruct Hw as [?|(prev & [= <-] & Hlt)]; [done|lra].
  - exists p. rewrite lookup_insert_ne by done. split; [done|lra].
Qed.

(** What a name reads as changes only by a number taking the place of
    [undefined] or of a larger number. *)
Lemma finalizePB_get m r k :
  match JS.get m k with
  | JS.VUndefined =>
      JS.get (finalizePB ns m r) k = JS.VUndefined
      ∨ ∃ t, k = displayName ns r ∧ tFinish r = Some t
             ∧ JS.get (finalizePB ns m r) k = JS.VNumber t
  | JS.VNumber p => ∃ p', JS.get (finalizePB ns m r) k = JS.VNumber p' ∧ (p' <= p)%Q
  | JS.VObject => JS.get (finalizePB ns m r) k = JS.VObject
  end.
Proof.
  destruct (finalizePB_cases m r) as [->|(t & Ht & -> & Hw)].
  { destruct (JS.get m k) as [|p|]; [by left|exists p; split; [done|lra]|done]. }
  destruct (decide (displayName ns r = k)) as [<-|Hne].
  - rewrite get_insert_eq.
    destruct Hw as [->|(prev & -> & Hlt)].
    + right. by exists t.
    + exists t. split; [done|lra].
  - rewrite get_insert_ne by done.
    destruct (JS.get m k) as [|p|]; [by left|exists p; split; [done|lra]|done].
Qed.

Lemma finalizePB_covers m r : covered ns (finalizePB ns m r) r.
Proof.
  unfold covered, finalizePB. destruct (tFinish r) as [t|]; [|done].
  destruct (JS.get m (displayName ns r)) as [|prev|] eqn:Hg.
  - rewrite get_insert_eq. lra.
  - destruct (JS.ltb t prev) eqn:Hlt.
    + rewrite get_insert_eq. lra.
    + rewrite Hg. by apply ltb_false in Hlt.
  - by rewrite Hg.
Qed.

Lemma finalizePB_covered_mono m r r' :
  covered ns m r' → covered ns (finalizePB ns m r) r'.
Proof.
  unfold covered. destruct (tFinish r') as [t'|]; [|done].
  pose proof (finalizePB_get m r (displayName ns r')) as Hg.
  destruct (JS.get m (displayName ns r')) as [|p|]; [done| |by intros _; rewrite Hg].
  intros Hle. destruct Hg as (p' & -> & Hle'). lra.
Qed.

Lemma finalizePB_covered_id m r : covered ns m r → finalizePB ns m r = m.
Proof.
  unfold covered, finalizePB.
  destruct (tFinish r) as [t|]; [|done].
  destruct (JS.get m (displayName ns r)) as [|p|]; [done| |done].
  intros Hle. destruct (JS.ltb t p) eqn:Hlt; [|done].
  apply ltb_true in Hlt. lra.
Qed.

Lemma mergePBs_covered_mono rs m r :
  covered ns m r → covered ns (mergePBs ns m rs) r.
Proof.
  unfold mergePBs. revert m.
  induction rs as [|x rs IH]; intros m Hc; simpl; [done|].
  by apply IH, finalizePB_covered_mono.
Qed.

Lemma mergePBs_covers rs m : Forall (covered ns (mergePBs ns m rs)) rs.
Proof.
  revert m. induction rs as [|x rs IH]; intros m; [constructor|].
  constructor.
  - apply (mergePBs_covered_mono rs), finalizePB_covers.
  - apply IH.
Qed.

Lemma mergePBs_covered_id rs m : Forall (covered ns m) rs → mergePBs ns m rs = m.
Proof.
  unfold mergePBs. induction 1 as [|x rs Hx _ IH]; simpl; [done|].
  by rewrite finalizePB_covered_id.
Qed.

Lemma mergePBs_idempotent rs m :
  mergePBs ns (mergePBs ns m rs) rs = mergePBs ns m rs.
Proof. apply mergePBs_covered_id, mergePBs_covers. Qed.

End PBFacts.

(** C7.  For one runner, [finalizePBs] changes the table only by writing
    the runner's finish time under its name, and only when there is no
    record for that name or the time is strictly smaller than the record;
    it does write in the second case, and in the first unless the name is
    one every object inherits (such as "constructor"), whose value reads
    as not null and not smaller, so that nothing is written.  Every other
    name keeps its record, and a runner without a finish time changes
    nothing.  Consequently running [finalizePBs] twice on the same
    runners and names gives the same table as running it once. *)
Theorem finalizePBs_min_merge_idempotent (s : State) :
  (∀ m r, finalizePB (names s) m r ≠ m →
     ∃ t, tFinish r = Some t
          ∧ finalizePB (names s) m r = <[displayName (names s) r := t]> m
          ∧ (m !! displayName (names s) r = None
             ∨ ∃ prev, m !! displayName (names s) r = Some prev ∧ (t < prev)%Q))
  ∧ (∀ m r t, tFinish r = Some t →
       ((∃ prev, m !! displayName (names s) r = Some prev ∧ (t < prev)%Q)
        ∨ (m !! displayName (names s) r = None
           ∧ displayName (names s) r ∉ JS.objectPrototypeKeys) →
        finalizePB (names s) m r = <[displayName (names s) r := t]> m)
       ∧ ((∃ prev, m !! displayName (names s) r = Some prev ∧ (prev <= t)%Q)
          ∨ (m !! displayName (names s) r = None
             ∧ displayName (names s) r ∈ JS.objectPrototypeKeys) →
          finalizePB (names s) m r = m))
  ∧ (∀ m r, tFinish r = None → finalizePB (names s) m r = m)
  ∧ (∀ m r k, k ≠ displayName (names s) r →
       finalizePB (names s) m r !! k = m !! k)
  ∧ pbs (finalizePBs s) = mergePBs (names s) (pbs s) (runners s)
  ∧ pbs (finalizePBs (finalizePBs s)) = pbs (finalizePBs s).
Proof.
  split; [|split; [|split; [|split; [|split; [reflexivity|]]]]].
  - intros m r Hch.
    destruct (finalizePB_cases (names s) m r) as [?|(t & Ht & Hw & Hc)]; [done|].
    exists t. split; [done|]. split; [done|].
    destruct Hc as [Hu|(prev & Hn & Hlt)].
    + left. by apply get_undefined_inv in Hu as [? _].
    + right. exists prev. split; [by apply get_number_inv|done].
  - intros m r t Ht. unfold finalizePB, JS.get. rewrite Ht. split.
    + intros [(prev & -> & Hlt)|[-> Hk]].
      * apply ltb_true in Hlt. by rewrite Hlt.
      * by rewrite bool_decide_eq_false_2.
    + intros [(prev & -> & Hle)|[-> Hk]].
      * apply ltb_false in Hle. by rewrite Hle.
      * by rewrite bool_decide_eq_true_2.
  - intros m r Ht. unfold finalizePB. by rewrite Ht.
  - intros m r k Hne.
    destruct (finalizePB_cases (names s) m r) as [->|(t & _ & -> & _)]; [done|].
    by rewrite lookup_insert_ne.
  - apply (mergePBs_idempotent (names s) (runners s) (pbs s)).
Qed.

(** Lane 1 is named "constructor": with an empty table its finish time
    is not recorded, and the table stays empty however often
    [finalizePBs] runs. *)
Example personal_best_inherited_name :
  mergePBs ["constructor"] ∅ [ana 12.5] = ∅
  ∧ mergePBs ["constructor"] (<["constructor" := 13%Q]> ∅) [ana 12.5]
    = <["constructor" := 12.5%Q]> (<["constructor" := 13%Q]> ∅).
Proof. split; vm_compute; reflexivity. Qed.

Example personal_best_scenario :
  let m1 := mergePBs ["Ana"] ∅ [ana 12.5] in
  let m2 := mergePBs ["Ana"] m1 [ana 13] in
  let m3 := mergePBs ["Ana"] m2 [ana 11.9] in
  m1 !! "Ana" = Some 12.5%Q ∧ m2 !! "Ana" = Some 12.5%Q ∧ m3 !! "Ana" = Some 11.9%Q.
Proof. repeat split; vm_compute; reflexivity. Qed.

(** ** What each handler does to the runners *)

Lemma countdown_step_runners now c s : runners (countdown_step now c s) = runners s.
Proof.
  unfold countdown_step, onCountdownDone, playGunshot, playCountBeep.
  destruct (_ <=? _)%nat; simpl.
  - destruct (audio s); reflexivity.
  - destruct (audio s); reflexivity.
Qed.

Lemma startRace_runners now s : runners (startRace now s) = runners s.
Proof.
  unfold startRace. destruct (raceStarted s); [done|].
  unfold countdown. by rewrite countdown_step_runners.
Qed.

Lemma fire_runners now t s : runners (fire now t s) = runners s.
Proof.
  destruct t as [c|c|]; simpl; [done| |done].
  apply countdown_step_runners.
Qed.

Lemma resetRace_runners s : runners (resetRace s) = imap resetRunner (runners s).
Proof. reflexivity. Qed.

Lemma advanceLoop_fmap {A} (f : Runner → A) now elapsed dt ks s :
  (∀ r, f (advanced elapsed dt r) = f r) →
  f <$> runners (foldl (advanceRunner now elapsed dt) s ks) = f <$> runners s.
Proof.
  intros Hadv. revert s. induction ks as [|k ks IH]; intros s; simpl; [done|].
  rewrite IH.
  destruct (advanceRunner_runners now elapsed dt s k)
    as [->|(r & Hk & _ & ->)]; [done|].
  rewrite list_fmap_insert, Hadv.
  apply list_insert_id. by rewrite list_lookup_fmap, Hk.
Qed.

Lemma advanceLoop_lastT now elapsed dt ks s :
  lastT (foldl (advanceRunner now elapsed dt) s ks) = lastT s.
Proof.
  revert s. induction ks as [|k ks IH]; intros s; simpl; [done|].
  rewrite IH. unfold advanceRunner.
  destruct (runners s !! k) as [r|]; [|done].
  destruct (finished r); [done|]. by destruct (JS.geb _ _).
Qed.

Section HandlerFacts.
Variable tanHalfFov : Q.

(** Only a frame or a reset can change a runner. *)
Lemma handle_runners_other e s s' :
  handle tanHalfFov e s = Some s' →
  match e with
  | Frame _ _ | ClickReset _ => True
  | _ => runners s' = runners s
  end.
Proof.
  destruct e as [now aspect|now|now|now k|now vals]; simpl; try done.
  - intros [= <-]. apply startRace_runners.
  - destruct (timers s !! k) as [t|]; [|done].
    destruct (Qle_bool _ _); [|done].
    intros [= <-]. by rewrite fire_runners.
  - by intros [= <-].
Qed.

(** A property of runners that survives an advance by a non-negative
    time step and a reset survives every event, provided the clock
    reading of the event is not before the previous frame. *)
Lemma handle_runners_Forall (P : Runner → Prop) e s s' :
  (∀ elapsed dt r, (0 <= dt)%Q → P r → finished r = false →
                   P (advanced elapsed dt r)) →
  (∀ i r, P r → P (resetRunner i r)) →
  (lastT s <= time_of e)%Q →
  Forall P (runners s) →
  handle tanHalfFov e s = Some s' →
  Forall P (runners s').
Proof.
  intros Hadv Hreset Hclock HP He.
  destruct e as [now aspect|now|now|now k|now vals];
    try (apply handle_runners_other in He; simpl in He; by rewrite He).
  - simpl in He, Hclock. injection He as <-.
    rewrite animationLoop_runners. destruct (raceStarted s); [|done].
    apply advanceLoop_Forall; [|done].
    intros r Hr Hf. apply Hadv; [|done..].
    by apply dt_nonneg.
  - simpl in He. injection He as <-. rewrite resetRace_runners.
    apply Forall_lookup. intros i r Hi.
    rewrite list_lookup_imap in Hi.
    destruct (runners s !! i) as [r0|] eqn:Hr0; [|done].
    injection Hi as <-. apply Hreset.
    by eapply Forall_lookup_1.
Qed.

(** A field that neither an advance nor a reset changes is the same, lane
    by lane, after every event. *)
Lemma handle_runners_fmap {A} (f : Runner → A) e s s' :
  (∀ elapsed dt r, f (advanced elapsed dt r) = f r) →
  (∀ i r, f (resetRunner i r) = f r) →
  handle tanHalfFov e s = Some s' →
  f <$> runners s' = f <$> runners s.
Proof.
  intros Hadv Hreset He.
  destruct e as [now aspect|now|now|now k|now vals];
    try (apply handle_runners_other in He; simpl in He; by rewrite He).
  - simpl in He. injection He as <-.
    rewrite animationLoop_runners. destruct (raceStarted s); [|done].
    by rewrite advanceLoop_fmap.
  - simpl in He. injection He as <-. rewrite resetRace_runners.
    apply list_eq. intros i.
    rewrite !list_lookup_fmap, list_lookup_imap.
    destruct (runners s !! i); simpl; [|done]. by rewrite Hreset.
Qed.

Lemma handle_lastT e s s' :
  handle tanHalfFov e s = Some s' →
  lastT s' = match e with Frame now _ => now | _ => lastT s end.
Proof.
  destruct e as [now aspect|now|now|now k|now vals]; simpl.
  - intros [= <-]. unfold animationLoop. simpl.
    destruct (raceStarted s); [|done].
    match goal with |- context [forallb finished ?l] => destruct (forallb finished l) end;
      simpl; by rewrite advanceLoop_lastT.
  - intros [= <-]. unfold startRace. destruct (raceStarted s); [done|].
    unfold countdown, countdown_step. simpl. reflexivity.
  - by intros [= <-].
  - destruct (timers s !! k) as [t|]; [|done].
    destruct (Qle_bool _ _); [|done]. intros [= <-].
    destruct (task t) as [c|c|]; simpl; [done| |done].
    unfold countdown_step, onCountdownDone, playGunshot, playCountBeep.
    destruct (_ <=? _)%nat; simpl; by destruct (audio s).
  - by intros [= <-].
Qed.

Lemma step_inv w e w' :
  step tanHalfFov w e = Some w' →
  (clock w <= time_of e)%Q ∧ clock w' = time_of e
  ∧ handle tanHalfFov e (app w) = Some (app w').
Proof.
  unfold step. destruct (Qle_bool _ _) eqn:Hc; [|done].
  apply Qle_bool_iff in Hc.
  destruct (handle _ _ _) as [s'|]; [|done]. simpl.
  by intros [= <-].
Qed.

Lemma step_clock_ok w e w' :
  clock_ok w → step tanHalfFov w e = Some w' → clock_ok w'.
Proof.
  unfold clock_ok. intros Hw Hs.
  apply step_inv in Hs as (Hc & Hc' & Hh).
  apply handle_lastT in Hh. rewrite Hh, Hc'.
  destruct e; simpl in *; lra.
Qed.

(** Induction over the events of a run. *)
Lemma run_invariant (I : World → Prop) w es w' :
  (∀ w e w', I w → step tanHalfFov w e = Some w' → I w') →
  I w → run tanHalfFov w es = Some w' → I w'.
Proof.
  intros Hstep. revert w.
  induction es as [|e es IH]; intros w Hw; simpl.
  - by intros [= <-].
  - destruct (step tanHalfFov w e) as [w1|] eqn:Hs; [|done].
    apply IH. by eapply Hstep.
Qed.

End HandlerFacts.

(** ** Invariants of the reachable states *)

Lemma finish_consistent_unfinished r :
  finished r = false → tFinish r = None → (posZ r < finishZ)%Q →
  finish_consistent r.
Proof.
  intros Hf Ht Hz. unfold finish_consistent. rewrite Hf, Ht.
  repeat split; intros H; try done; lra.
Qed.

Lemma finish_consistent_finished r :
  finished r = true → is_Some (tFinish r) → (finishZ <= posZ r)%Q →
  finish_consistent r.
Proof.
  intros Hf [t Ht] Hz. unfold finish_consistent. rewrite Hf, Ht.
  repeat split; done.
Qed.

Lemma advanced_finish_consistent elapsed dt r :
  finish_consistent r → finished r = false →
  finish_consistent (advanced elapsed dt r).
Proof.
  intros (Hft & _ & _) Hf. unfold advanced.
  destruct (JS.geb _ _) eqn:Hg.
  - apply finish_consistent_finished; simpl; [done|by eexists|lra].
  - apply geb_false in Hg.
    apply finish_consistent_unfinished; simpl; [done| |done].
    destruct (tFinish r) as [t|]; [|done].
    assert (finished r = true) by (by apply Hft). congruence.
Qed.

Lemma resetRunner_finish_consistent i r : finish_consistent (resetRunner i r).
Proof.
  apply finish_consistent_unfinished; simpl; [done|done|].
  unfold startZ, finishZ. lra.
Qed.

Lemma loadRunners_Forall (P : Runner → Prop) rand :
  (∀ i, P (loadRunner rand i)) → Forall P (loadRunners rand).
Proof.
  intros H. unfold loadRunners. apply Forall_fmap, Forall_forall. intros i _. apply H.
Qed.

Lemma init_runners t0 rand sn sp : runners (app (init t0 rand sn sp)) = loadRunners rand.
Proof. reflexivity. Qed.

Lemma init_clock_ok t0 rand sn sp : clock_ok (init t0 rand sn sp).
Proof. unfold clock_ok. simpl. lra. Qed.

(** A property of runners that holds at load and survives advances by a
    non-negative step and resets holds in every reachable state. *)
Lemma reachable_runners_Forall tanHalfFov (P : Runner → Prop) t0 rand sn sp es w :
  (∀ i, P (loadRunner rand i)) →
  (∀ elapsed dt r, (0 <= dt)%Q → P r → finished r = false →
                   P (advanced elapsed dt r)) →
  (∀ i r, P r → P (resetRunner i r)) →
  run tanHalfFov (init t0 rand sn sp) es = Some w →
  Forall P (runners (app w)).
Proof.
  intros Hload Hadv Hreset Hrun.
  apply (run_invariant tanHalfFov
           (λ w, clock_ok w ∧ Forall P (runners (app w))) _ _ _) in Hrun.
  - apply Hrun.
  - intros w1 e w2 [Hc HP] Hs. split; [by eapply step_clock_ok|].
    apply step_inv in Hs as (Hle & _ & Hh).
    eapply handle_runners_Forall; [exact Hadv|exact Hreset| |exact HP|exact Hh].
    unfold clock_ok in Hc. lra.
  - split; [apply init_clock_ok|]. rewrite init_runners.
    by apply loadRunners_Forall.
Qed.

(** No event other than a reset changes a runner that has finished. *)
Lemma step_finished_frozen tanHalfFov w e w' k r :
  step tanHalfFov w e = Some w' →
  (∀ now, e ≠ ClickReset now) →
  runners (app w) !! k = Some r → finished r = true →
  runners (app w') !! k = Some r.
Proof.
  intros Hs Hne Hk Hf. apply step_inv in Hs as (_ & _ & Hh).
  destruct e as [now aspect|now|now|now j|now vals];
    try (apply handle_runners_other in Hh; simpl in Hh; by rewrite Hh).
  - simpl in Hh. injection Hh as <-. by apply animationLoop_finished_frozen.
  - by destruct (Hne now).
Qed.

(** C3.  In every state the page can reach, each runner has [finished]
    set exactly when its finish time is not null and exactly when its
    position is at or beyond the finish line; and no event other than a
    reset changes the record of a runner that has finished, so its flag
    and finish time stay as they are. *)
Theorem finished_iff_time_iff_position
    (tanHalfFov t0 : Q) (rand : nat → Q) (storedNames : option (list string))
    (storedPBs : option (gmap string Q)) (es : list Event) (w : World) :
  run tanHalfFov (init t0 rand storedNames storedPBs) es = Some w →
  Forall finish_consistent (runners (app w))
  ∧ ∀ e w' k r,
      step tanHalfFov w e = Some w' →
      (∀ now, e ≠ ClickReset now) →
      runners (app w) !! k = Some r → finished r = true →
      ∃ r', runners (app w') !! k = Some r'
            ∧ finished r' = true ∧ tFinish r' = tFinish r.
Proof.
  intros Hrun. split.
  - eapply reachable_runners_Forall; [| | |exact Hrun].
    + intros i. apply finish_consistent_unfinished; simpl; [done|done|].
      unfold startZ, finishZ. lra.
    + intros elapsed dt r _. apply advanced_finish_consistent.
    + intros i r _. apply resetRunner_finish_consistent.
  - intros e w' k r Hs Hne Hk Hf. exists r.
    split; [|done]. by eapply step_finished_frozen.
Qed.

Example raceDemo_positions :
  (λ w, Qred ∘ posZ <$> runners (app w)) <$> raceDemo
  = Some [39 # 40; 423 # 400; 57 # 50; 489 # 400]%Q.
Proof. vm_compute. reflexivity. Qed.

Lemma finished_iff_time_iff_position_witness :
  ∃ w, raceDemo = Some w ∧ Forall finish_consistent (runners (app w)).
Proof.
  eexists. split.
  - vm_compute. reflexivity.
  - refine (proj1 (finished_iff_time_iff_position 0.6008606 0 draws0 None None
             ([ClickStart 1000] ++ countdownEvents 1000 ++ frameEvents 4280 3) _ _)).
    vm_compute. reflexivity.
Defined.

(** ** Positions stay on the track *)

Lemma advanced_on_track elapsed dt r :
  (0 <= dt)%Q → on_track r → finished r = false → on_track (advanced elapsed dt r).
Proof.
  intros Hdt ([Hlo Hhi] & _ & Hv) Hf. unfold advanced, on_track.
  pose proof (Qmult_le_0_compat _ _ Hv Hdt) as Hstep.
  destruct (JS.geb _ _) eqn:Hg; simpl.
  - unfold startZ, finishZ in *. repeat split; [lra|lra|done].
  - apply geb_false in Hg. rewrite Hf.
    unfold startZ, finishZ in *. split; [split; lra|]. by split.
Qed.

Lemma resetRunner_on_track i r : on_track r → on_track (resetRunner i r).
Proof.
  intros (_ & _ & Hv). unfold on_track, resetRunner, startZ, finishZ. simpl.
  repeat split; [lra|lra|done|done].
Qed.

Lemma loadRunner_speed_range rand i :
  (0 <= rand i < 1)%Q → (6.5 <= speed (loadRunner rand i) < 6.5 + 2.2)%Q.
Proof. simpl. lra. Qed.

Lemma loadRunner_on_track rand i : (0 <= rand i < 1)%Q → on_track (loadRunner rand i).
Proof.
  intros Hr. pose proof (loadRunner_speed_range rand i Hr) as Hs.
  unfold on_track. simpl in *. unfold startZ, finishZ.
  repeat split; [lra|lra|done|lra].
Qed.

(** C10.  In every state the page can reach, with [Math.random()]
    returning values in [0, 1) and a clock that does not run backwards,
    every runner's position is between the start line and the finish
    line, and a finished runner stands exactly on the finish line. *)
Theorem position_between_start_and_finish
    (tanHalfFov t0 : Q) (rand : nat → Q) (storedNames : option (list string))
    (storedPBs : option (gmap string Q)) (es : list Event) (w : World) :
  (∀ i, (0 <= rand i < 1)%Q) →
  run tanHalfFov (init t0 rand storedNames storedPBs) es = Some w →
  Forall (λ r, (startZ <= posZ r <= finishZ)%Q
               ∧ (finished r = true → posZ r = finishZ))
         (runners (app w)).
Proof.
  intros Hrand Hrun.
  eapply Forall_impl.
  - eapply (reachable_runners_Forall tanHalfFov on_track); [| | |exact Hrun].
    + intros i. by apply loadRunner_on_track.
    + intros elapsed dt r. apply advanced_on_track.
    + intros i r. apply resetRunner_on_track.
  - intros r (H1 & H2 & _). by split.
Qed.

Lemma draws0_range i : (0 <= draws0 i < 1)%Q.
Proof.
  destruct i as [|[|[|i]]]; simpl; lra.
Qed.

Lemma position_between_start_and_finish_witness :
  (∀ i, (0 <= draws0 i < 1)%Q)
  ∧ ∃ w, raceDemo = Some w
         ∧ Forall (λ r, (startZ <= posZ r <= finishZ)%Q
                        ∧ (finished r = true → posZ r = finishZ))
                  (runners (app w)).
Proof.
  split; [exact draws0_range|].
  eexists. split.
  - vm_compute. reflexivity.
  - refine (position_between_start_and_finish 0.6008606 0 draws0 None None
              ([ClickStart 1000] ++ countdownEvents 1000 ++ frameEvents 4280 3)
              _ draws0_range _).
    vm_compute. reflexivity.
Defined.

(** ** Speeds *)

Lemma reachable_speeds tanHalfFov t0 rand sn sp es w :
  run tanHalfFov (init t0 rand sn sp) es = Some w →
  speed <$> runners (app w) = speed <$> loadRunners rand.
Proof.
  intros Hrun.
  apply (run_invariant tanHalfFov
           (λ w, speed <$> runners (app w) = speed <$> loadRunners rand) _ _ _)
    in Hrun; [done| |done].
  intros w1 e w2 Hw1 Hs. apply step_inv in Hs as (_ & _ & Hh).
  rewrite <- Hw1. eapply handle_runners_fmap; [| |exact Hh].
  - intros elapsed dt r. unfold advanced. by destruct (JS.geb _ _).
  - done.
Qed.

(** C4, as the program has it.  The speed of each runner is computed
    once, when the runners are loaded, as 6.5 + u * 2.2 from that lane's
    draw u of [Math.random()], so it lies in [6.5, 6.5 + 2.2) for a draw
    in [0, 1); no event changes it afterwards, so in every reachable
    state, whatever starts and resets came before, the speeds are those
    of the load. *)
Theorem speed_sampled_at_load_and_kept
    (tanHalfFov t0 : Q) (rand : nat → Q) (storedNames : option (list string))
    (storedPBs : option (gmap string Q)) (es : list Event) (w : World) :
  run tanHalfFov (init t0 rand storedNames storedPBs) es = Some w →
  speed <$> runners (app w) = (λ i, 6.5 + rand i * 2.2)%Q <$> seq 0 4
  ∧ ((∀ i, (0 <= rand i < 1)%Q) →
     Forall (λ v, (6.5 <= v < 6.5 + 2.2)%Q) (speed <$> runners (app w))).
Proof.
  intros Hrun. apply reachable_speeds in Hrun. rewrite Hrun.
  split; [reflexivity|].
  intros Hrand. apply Forall_fmap, loadRunners_Forall.
  intros i. by apply loadRunner_speed_range.
Qed.

Lemma speed_sampled_at_load_and_kept_witness :
  ∃ w, raceDemo = Some w
       ∧ speed <$> runners (app w) = (λ i, 6.5 + draws0 i * 2.2)%Q <$> seq 0 4.
Proof.
  eexists. split.
  - vm_compute. reflexivity.
  - refine (proj1 (speed_sampled_at_load_and_kept 0.6008606 0 draws0 None None
              ([ClickStart 1000] ++ countdownEvents 1000 ++ frameEvents 4280 3)
              _ _)).
    vm_compute. reflexivity.
Defined.

(** C4, as the specification has it, fails: a second race, started after
    a reset of the first, runs with the very speeds of the first; nothing
    is drawn for it. *)
Lemma second_race_reuses_speeds :
  ∃ w1 w2,
    run 0.6008606 page0
        ([ClickStart 1000] ++ countdownEvents 1000 ++ frameEvents 4280 2) = Some w1
    ∧ run 0.6008606 w1
          ([ClickReset 4500; ClickStart 5000] ++ countdownEvents 5000
             ++ frameEvents 8280 1) = Some w2
    ∧ raceStarted (app w1) = true ∧ Qred (tStart (app w1)) = 4280%Q
    ∧ raceStarted (app w2) = true ∧ Qred (tStart (app w2)) = 8280%Q
    ∧ Qred ∘ speed <$> runners (app w1) = [13 # 2; 141 # 20; 38 # 5; 163 # 20]%Q
    ∧ Qred ∘ speed <$> runners (app w2) = [13 # 2; 141 # 20; 38 # 5; 163 # 20]%Q
    ∧ speed <$> runners (app w2) = speed <$> runners (app w1).
Proof.
  eexists. eexists.
  split; [vm_compute; reflexivity|].
  split; [vm_compute; reflexivity|].
  repeat split; vm_compute; reflexivity.
Qed.

(** ** Reset during the countdown *)

Lemma resetRace_at_start s : Forall at_start (runners (resetRace s)).
Proof.
  rewrite resetRace_runners. apply Forall_lookup. intros i r Hi.
  rewrite list_lookup_imap in Hi.
  destruct (runners s !! i) as [r0|]; [|done].
  injection Hi as <-. done.
Qed.

Section IdleFrames.
Variable tanHalfFov : Q.

Lemma animationLoop_not_started now aspect s :
  raceStarted s = false →
  raceStarted (animationLoop tanHalfFov now aspect s) = false
  ∧ runners (animationLoop tanHalfFov now aspect s) = runners s
  ∧ cues (animationLoop tanHalfFov now aspect s) = cues s
  ∧ timers (animationLoop tanHalfFov now aspect s) = timers s.
Proof.
  intros H. unfold animationLoop. simpl. rewrite H. done.
Qed.

(** While [raceStarted] is false, frames move nobody and start nothing. *)
Lemma renderFrames_not_started s fs :
  raceStarted s = false →
  raceStarted (renderFrames tanHalfFov s fs) = false
  ∧ runners (renderFrames tanHalfFov s fs) = runners s
  ∧ cues (renderFrames tanHalfFov s fs) = cues s
  ∧ timers (renderFrames tanHalfFov s fs) = timers s.
Proof.
  revert s. induction fs as [|[now aspect] fs IH]; intros s H; simpl; [done|].
  destruct (animationLoop_not_started now aspect s H) as (H1 & H2 & H3 & H4).
  destruct (IH _ H1) as (G1 & G2 & G3 & G4).
  by rewrite G2, G3, G4.
Qed.

(** A pending countdown step fires after a reset as it would have
    without it: the reset does not look at the timers. *)
Lemma fire_step_after_reset now k t c s :
  timers s !! k = Some (mkTimer t (TStep c)) → (t <= now)%Q →
  handle tanHalfFov (Timeout now k) (resetRace s)
  = Some (countdown_step now c (set_timers (delete k (timers s)) (resetRace s))).
Proof.
  intros Hk Ht. unfold handle.
  change (timers (resetRace s)) with (timers s). rewrite Hk. simpl.
  apply Qle_bool_iff in Ht. by rewrite Ht.
Qed.

(** So does a pending hide. *)
Lemma fire_hide_after_reset now k t c s :
  timers s !! k = Some (mkTimer t (THide c)) → (t <= now)%Q →
  handle tanHalfFov (Timeout now k) (resetRace s)
  = Some (countdown_hide now c (set_timers (delete k (timers s)) (resetRace s))).
Proof.
  intros Hk Ht. unfold handle.
  change (timers (resetRace s)) with (timers s). rewrite Hk. simpl.
  apply Qle_bool_iff in Ht. by rewrite Ht.
Qed.

End IdleFrames.

Section CountdownRun.
Variable tanHalfFov : Q.

Lemma countdown_step_runs ts : ∀ c now s,
  timers s = [] → audio s = true →
  length ts = (length (cd_labels c) - cd_i c)%nat →
  fire_times_ok (cd_ms c) now ts →
  ∃ s', fireTimers tanHalfFov (countdown_step now c s) ts = Some s'
        ∧ cues s' = cues s ++ (CueBeep <$> drop (cd_i c) (cd_labels c)) ++ [CueGunshot]
        ∧ raceStarted s' = true ∧ tStart s' = last_fire now ts
        ∧ timers s' = [] ∧ runners s' = runners s
        ∧ countdownVisible s' = false ∧ audio s' = true.
Proof.
  induction ts as [|[th tn] ts IH]; intros c now s Ht Ha Hlen Hok.
  - simpl in Hlen. assert (Hge : (length (cd_labels c) <= cd_i c)%nat) by lia.
    unfold countdown_step.
    destruct (Nat.leb_spec (length (cd_labels c)) (cd_i c)); [|lia].
    unfold onCountdownDone, playGunshot. simpl. rewrite Ha. simpl.
    eexists. split; [done|]. rewrite drop_ge by done. simpl.
    by rewrite Ht, Ha.
  - simpl in Hlen. destruct Hok as (Hh & Hn & Hok).
    assert (Hlt : (cd_i c < length (cd_labels c))%nat) by lia.
    destruct (lookup_lt_is_Some_2 _ _ Hlt) as [label Hl].
    unfold countdown_step.
    destruct (Nat.leb_spec (length (cd_labels c)) (cd_i c)); [lia|].
    rewrite Hl. unfold playCountBeep. simpl. rewrite Ha.
    unfold setTimeout. simpl. rewrite Ht. simpl.
    apply Qle_bool_iff in Hh. rewrite Hh. simpl.
    apply Qle_bool_iff in Hn. rewrite Hn. simpl.
    match goal with |- context [countdown_step tn ?c' ?s3] =>
      destruct (IH c' tn s3) as (s' & Hrun & Hc & Hr & Hts & Htm & Hru & Hv & Hau)
    end; [done|done|simpl; lia|done|].
    exists s'. split; [exact Hrun|].
    simpl in Hc, Hru. rewrite Hc, Hr, Hts, Htm, Hru, Hv, Hau.
    rewrite (drop_S _ _ _ Hl). rewrite <- app_assoc. done.
Qed.

(** A pending hide, fired, schedules the next step 120 ms later; that
    step and the rest of the countdown then run to the start of the
    race. *)
Lemma hide_then_steps_run t c th tn ts s :
  timers s = [mkTimer t (THide c)] → audio s = true →
  (t <= th)%Q → (th + 120 <= tn)%Q →
  length ts = (length (cd_labels c) - cd_i c)%nat →
  fire_times_ok (cd_ms c) tn ts →
  ∃ s', fireTimers tanHalfFov s ((th, tn) :: ts) = Some s'
        ∧ cues s' = cues s ++ (CueBeep <$> drop (cd_i c) (cd_labels c)) ++ [CueGunshot]
        ∧ raceStarted s' = true ∧ tStart s' = last_fire tn ts
        ∧ timers s' = [] ∧ runners s' = runners s.
Proof.
  intros Ht Ha Hh Hn Hlen Hok.
  cbn [fireTimers]. unfold handle. rewrite Ht. simpl.
  apply Qle_bool_iff in Hh. rewrite Hh. simpl.
  apply Qle_bool_iff in Hn. rewrite Hn. simpl.
  match goal with |- context [countdown_step tn c ?s3] =>
    destruct (countdown_step_runs ts c tn s3)
      as (s' & Hrun & Hc & Hr & Hts & Htm & Hru & _)
  end; [done|done|done|done|].
  exists s'. split; [exact Hrun|]. simpl in Hc, Hru. by rewrite Hc, Hru.
Qed.

(** A pending step, fired, runs the rest of the countdown to the start
    of the race. *)
Lemma step_then_steps_run t c tn ts s :
  timers s = [mkTimer t (TStep c)] → audio s = true →
  (t <= tn)%Q →
  length ts = (length (cd_labels c) - cd_i c)%nat →
  fire_times_ok (cd_ms c) tn ts →
  ∃ s1 s', handle tanHalfFov (Timeout tn 0) s = Some s1
        ∧ fireTimers tanHalfFov s1 ts = Some s'
        ∧ cues s' = cues s ++ (CueBeep <$> drop (cd_i c) (cd_labels c)) ++ [CueGunshot]
        ∧ raceStarted s' = true ∧ tStart s' = last_fire tn ts
        ∧ timers s' = [] ∧ runners s' = runners s.
Proof.
  intros Ht Ha Hn Hlen Hok.
  unfold handle. rewrite Ht. simpl.
  apply Qle_bool_iff in Hn. rewrite Hn. simpl.
  match goal with |- context [countdown_step tn c ?s3] =>
    destruct (countdown_step_runs ts c tn s3)
      as (s' & Hrun & Hc & Hr & Hts & Htm & Hru & _)
  end; [done|done|done|done|].
  eexists. exists s'. split; [reflexivity|]. split; [exact Hrun|].
  simpl in Hc, Hru. by rewrite Hc, Hru.
Qed.

End CountdownRun.

(** C1, as the program has it.  A reset clears [raceStarted], puts every
    runner back on the start line, unfinished and without a time, and
    plays no cue; frames rendered while [raceStarted] is false move
    nobody.  The reset leaves the pending timers alone, so a countdown in
    progress goes on.  Timer by timer: a pending hide hides the label and
    schedules the next step 120 ms later; a pending step that still has a
    label shows it and beeps; the step after the last label plays the
    start cue, records the start time and sets [raceStarted].  And as a
    whole, when the countdown's timer is the only one pending and sound
    is on: whether the reset comes while a label is showing (the hide is
    pending) or between two labels (the step is pending), the timers
    fired in turn beep every label that was left, play the start cue and
    start the race, at the time of the last step, with the runners on
    the start line. *)
Theorem reset_leaves_countdown_running (tanHalfFov : Q) (s : State) :
  raceStarted (resetRace s) = false
  ∧ Forall at_start (runners (resetRace s))
  ∧ cues (resetRace s) = cues s
  ∧ timers (resetRace s) = timers s
  ∧ (∀ fs, runners (renderFrames tanHalfFov (resetRace s) fs) = runners (resetRace s)
           ∧ raceStarted (renderFrames tanHalfFov (resetRace s) fs) = false
           ∧ cues (renderFrames tanHalfFov (resetRace s) fs) = cues s)
  ∧ (∀ now k t c label,
       timers s !! k = Some (mkTimer t (TStep c)) → (t <= now)%Q →
       audio s = true → cd_labels c !! cd_i c = Some label →
       ∃ s', handle tanHalfFov (Timeout now k) (resetRace s) = Some s'
             ∧ cues s' = cues s ++ [CueBeep label]
             ∧ countdownText s' = label ∧ countdownVisible s' = true)
  ∧ (∀ now k t c,
       timers s !! k = Some (mkTimer t (TStep c)) → (t <= now)%Q →
       audio s = true → cd_labels c !! cd_i c = None →
       ∃ s', handle tanHalfFov (Timeout now k) (resetRace s) = Some s'
             ∧ cues s' = cues s ++ [CueGunshot]
             ∧ raceStarted s' = true ∧ tStart s' = now)
  ∧ (∀ now k t c,
       timers s !! k = Some (mkTimer t (THide c)) → (t <= now)%Q →
       ∃ s', handle tanHalfFov (Timeout now k) (resetRace s) = Some s'
             ∧ timers s' = delete k (timers s) ++ [mkTimer (now + 120) (TStep c)]
             ∧ countdownVisible s' = false
             ∧ cues s' = cues s ∧ raceStarted s' = false
             ∧ runners s' = runners (resetRace s))
  ∧ (∀ t c th tn ts,
       timers s = [mkTimer t (THide c)] → audio s = true →
       (t <= th)%Q → (th + 120 <= tn)%Q →
       length ts = (length (cd_labels c) - cd_i c)%nat →
       fire_times_ok (cd_ms c) tn ts →
       ∃ s', fireTimers tanHalfFov (resetRace s) ((th, tn) :: ts) = Some s'
             ∧ cues s'
               = cues s ++ (CueBeep <$> drop (cd_i c) (cd_labels c)) ++ [CueGunshot]
             ∧ raceStarted s' = true ∧ tStart s' = last_fire tn ts
             ∧ timers s' = []
             ∧ runners s' = runners (resetRace s))
  ∧ (∀ t c tn ts,
       timers s = [mkTimer t (TStep c)] → audio s = true →
       (t <= tn)%Q →
       length ts = (length (cd_labels c) - cd_i c)%nat →
       fire_times_ok (cd_ms c) tn ts →
       ∃ s1 s', handle tanHalfFov (Timeout tn 0) (resetRace s) = Some s1
             ∧ fireTimers tanHalfFov s1 ts = Some s'
             ∧ cues s'
               = cues s ++ (CueBeep <$> drop (cd_i c) (cd_labels c)) ++ [CueGunshot]
             ∧ raceStarted s' = true ∧ tStart s' = last_fire tn ts
             ∧ timers s' = []
             ∧ runners s' = runners (resetRace s)).
Proof.
  split; [reflexivity|]. split; [apply resetRace_at_start|].
  split; [reflexivity|]. split; [reflexivity|].
  split; [|split; [|split; [|split; [|split]]]].
  - intros fs.
    destruct (renderFrames_not_started tanHalfFov (resetRace s) fs eq_refl)
      as (H1 & H2 & H3 & _).
    by rewrite H3.
  - intros now k t c label Hk Ht Ha Hl. eexists.
    split; [by eapply fire_step_after_reset|].
    unfold countdown_step, playCountBeep.
    apply lookup_lt_Some in Hl as Hlt.
    destruct (Nat.leb_spec (length (cd_labels c)) (cd_i c)); [lia|].
    simpl. rewrite Ha, Hl. done.
  - intros now k t c Hk Ht Ha Hl. eexists.
    split; [by eapply fire_step_after_reset|].
    unfold countdown_step, onCountdownDone, playGunshot.
    apply lookup_ge_None in Hl.
    destruct (Nat.leb_spec (length (cd_labels c)) (cd_i c)); [|lia].
    simpl. rewrite Ha. done.
  - intros now k t c Hk Ht. eexists.
    split; [by eapply fire_hide_after_reset|]. done.
  - intros t c th tn ts Hk Ha Hh Hn Hlen Hok.
    apply (hide_then_steps_run tanHalfFov t c th tn ts (resetRace s)); done.
  - intros t c tn ts Hk Ha Hn Hlen Hok.
    apply (step_then_steps_run tanHalfFov t c tn ts (resetRace s)); done.
Qed.

(** Start is clicked at 1000 ms and Reset comes while "3" is showing:
    the hide of "3" is the one timer pending.  Fired on schedule, the
    timers beep "2", "1" and "GO!", play the start cue and start the
    race at 4280 ms. *)
Lemma reset_leaves_countdown_running_witness :
  ∃ s', fireTimers 0.6008606 (resetRace (startRace 1000 (app page0)))
          [(1700, 1820); (2520, 2640); (3340, 3460); (4160, 4280)]%Q = Some s'
        ∧ cues s'
          = [CueBeep "3"; CueBeep "2"; CueBeep "1"; CueBeep "GO!"; CueGunshot]
        ∧ raceStarted s' = true ∧ tStart s' = 4280%Q
        ∧ timers s' = []
        ∧ runners s' = runners (resetRace (startRace 1000 (app page0))).
Proof.
  refine (proj1 (proj2 (proj2 (proj2 (proj2 (proj2 (proj2 (proj2 (proj2
            (reset_leaves_countdown_running 0.6008606
               (startRace 1000 (app page0)))))))))))
            1700%Q (mkCountdown ["3"; "2"; "1"; "GO!"] 700 1) 1700%Q 1820%Q
            [(2520, 2640); (3340, 3460); (4160, 4280)]%Q _ _ _ _ _ _).
  - vm_compute. reflexivity.
  - vm_compute. reflexivity.
  - lra.
  - lra.
  - reflexivity.
  - cbn [fire_times_ok cd_ms]. lra.
Defined.

(** C1, as the specification has it, fails.  Start is clicked at 1000 ms
    and Reset at 1300 ms, while "3" is showing.  The countdown is still
    pending after the reset; its timers fire on schedule, "2", "1" and
    "GO!" are shown and beeped, the start cue is played at 4280 ms, the
    race is running, and the first frame moves every runner off the start
    line. *)
Lemma reset_during_countdown_race_still_starts :
  ∃ w1 w2 w3,
    run 0.6008606 page0 [ClickStart 1000; ClickReset 1300] = Some w1
    ∧ run 0.6008606 w1 (countdownEvents 1000) = Some w2
    ∧ run 0.6008606 w2 [Frame 4300 1.5] = Some w3
    ∧ raceStarted (app w1) = false
    ∧ phase (app w1) = Counting
    ∧ cues (app w1) = [CueBeep "3"]
    ∧ cues (app w2)
      = [CueBeep "3"; CueBeep "2"; CueBeep "1"; CueBeep "GO!"; CueGunshot]
    ∧ raceStarted (app w2) = true
    ∧ phase (app w2) = Running
    ∧ Qred ∘ posZ <$> runners (app w2) = [0; 0; 0; 0]%Q
    ∧ Qred ∘ posZ <$> runners (app w3) = [13 # 40; 141 # 400; 19 # 50; 163 # 400]%Q.
Proof.
  eexists. eexists. eexists.
  split; [vm_compute; reflexivity|].
  split; [vm_compute; reflexivity|].
  split; [vm_compute; reflexivity|].
  repeat split; vm_compute; reflexivity.
Qed.

(** * Further properties of the program *)

(** ** The loop over the runners as a map *)

Section LoopAsMap.
Variables (now elapsed dt : Q).

Lemma advanceRunner_lookup_ne s k j :
  j ≠ k → runners (advanceRunner now elapsed dt s k) !! j = runners s !! j.
Proof.
  intros Hne.
  destruct (advanceRunner_runners now elapsed dt s k) as [->|(r & _ & _ & ->)]; [done|].
  by rewrite list_lookup_insert_ne.
Qed.

Lemma advanceRunner_lookup_eq s k :
  runners (advanceRunner now elapsed dt s k) !! k
  = frameStep elapsed dt <$> runners s !! k.
Proof.
  unfold advanceRunner, frameStep, advanced.
  destruct (runners s !! k) as [r|] eqn:Hk; simpl; [|by rewrite Hk].
  apply lookup_lt_Some in Hk as Hlt.
  destruct (finished r); [by rewrite Hk|].
  destruct (JS.geb _ _); simpl; by rewrite list_lookup_insert_eq.
Qed.

Lemma advanceLoop_lookup ks :
  NoDup ks → ∀ s j,
  runners (foldl (advanceRunner now elapsed dt) s ks) !! j
  = if decide (j ∈ ks) then frameStep elapsed dt <$> runners s !! j
    else runners s !! j.
Proof.
  induction 1 as [|k ks Hk _ IH]; intros s j; simpl.
  - destruct (decide (j ∈ [])) as [Hin|_]; [|done]. by apply not_elem_of_nil in Hin.
  - rewrite IH. destruct (decide (j = k)) as [->|Hne].
    + destruct (decide (k ∈ ks)) as [|_]; [done|].
      rewrite advanceRunner_lookup_eq.
      destruct (decide (k ∈ k :: ks)) as [_|Hn]; [done|].
      exfalso. apply Hn, elem_of_cons. by left.
    + rewrite advanceRunner_lookup_ne by done.
      destruct (decide (j ∈ ks)) as [Hin|Hin];
        destruct (decide (j ∈ k :: ks)) as [Hin'|Hin']; try done.
      * exfalso. apply Hin', elem_of_cons. by right.
      * exfalso. apply elem_of_cons in Hin' as [?|?]; done.
Qed.

Lemma advanceLoop_map s :
  runners (foldl (advanceRunner now elapsed dt) s (seq 0 (length (runners s))))
  = frameStep elapsed dt <$> runners s.
Proof.
  apply list_eq. intros j.
  rewrite advanceLoop_lookup by apply NoDup_seq.
  rewrite list_lookup_fmap.
  destruct (decide (j ∈ seq 0 (length (runners s)))) as [_|Hn]; [done|].
  rewrite elem_of_seq in Hn.
  rewrite (lookup_ge_None_2 (runners s) j) by lia. done.
Qed.

Lemma advanceRunner_untouched s k :
  loop_untouched (advanceRunner now elapsed dt s k) = loop_untouched s.
Proof.
  unfold advanceRunner.
  destruct (runners s !! k) as [r|]; [|done].
  destruct (finished r); [done|]. by destruct (JS.geb _ _).
Qed.

Lemma advanceLoop_untouched ks s :
  loop_untouched (foldl (advanceRunner now elapsed dt) s ks) = loop_untouched s.
Proof.
  revert s. induction ks as [|k ks IH]; intros s; simpl; [done|].
  by rewrite IH, advanceRunner_untouched.
Qed.

End LoopAsMap.

Section FrameAsMap.
Variable tanHalfFov : Q.

(** A frame of a running race, field by field. *)
Lemma animationLoop_started now aspect s :
  raceStarted s = true →
  let elapsed := ((now - tStart s) / 1000)%Q in
  let dt := Qmin 0.05 ((now - lastT s) / 1000) in
  let rs' := frameStep elapsed dt <$> runners s in
  let s' := animationLoop tanHalfFov now aspect s in
  runners s' = rs'
  ∧ raceStarted s' = negb (forallb finished rs')
  ∧ pbs s' = (if forallb finished rs' then mergePBs (names s) (pbs s) rs' else pbs s)
  ∧ names s' = names s ∧ tStart s' = tStart s ∧ cues s' = cues s
  ∧ lastT s' = now ∧ timerText s' = elapsed.
Proof.
  intros Hs elapsed dt rs' s'. subst s'. unfold animationLoop. simpl. rewrite Hs.
  set (s1 := set_timerText _ _).
  pose proof (advanceLoop_map now elapsed dt s1) as Hmap.
  pose proof (advanceLoop_untouched now elapsed dt (seq 0 (length (runners s1))) s1) as Hu.
  change (runners s1) with (runners s) in Hmap.
  change (length (runners s1)) with (length (runners s)) in Hu.
  fold elapsed dt. fold rs' in Hmap.
  set (s2 := foldl _ s1 _) in *.
  unfold loop_untouched in Hu. simpl in Hu.
  injection Hu as H1 H2 H3 H4 H5 H6 H7 H8 H9 H10 H11 H12.
  rewrite Hmap.
  destruct (forallb finished rs') eqn:Hall; simpl.
  - rewrite Hmap, H5, H6, H2, H7, H3, H10. unfold mergePBs. done.
  - rewrite Hmap, H1, Hs, H5, H6, H2, H7, H3, H10. done.
Qed.

End FrameAsMap.

(** ** Where the score board can be written *)

Lemma forEachRow_safe ns m rs : ∀ idx rows,
  Forall (λ r, row_throws ns m r = false) rs →
  forEachRow ns m idx rs rows
  = (rows ++ imap (λ j, scoreRow ns m (idx + j)) rs, false).
Proof.
  induction rs as [|r rs IH]; intros idx rows Hs; simpl.
  - by rewrite app_nil_r.
  - apply Forall_cons in Hs as [Hr Hs]. rewrite Hr, (IH _ _ Hs).
    rewrite <- app_assoc. simpl. rewrite Nat.add_0_r.
    do 3 f_equal. apply imap_ext. intros j x _. simpl. f_equal. lia.
Qed.

Lemma forEachRow_threw ns m rs : ∀ idx rows,
  (forEachRow ns m idx rs rows).2 = existsb (row_throws ns m) rs.
Proof.
  induction rs as [|r rs IH]; intros idx rows; simpl; [done|].
  destruct (row_throws ns m r); [done|]. apply IH.
Qed.

Lemma existsb_Permutation {A} (f : A → bool) l1 l2 :
  l1 ≡ₚ l2 → existsb f l1 = existsb f l2.
Proof.
  induction 1 as [|x l1 l2 _ IH|x y l|l1 l2 l3 _ IH1 _ IH2]; simpl.
  - done.
  - by rewrite IH.
  - by destruct (f x), (f y).
  - by rewrite IH1.
Qed.

(** [updateScores] throws exactly when a runner's row cannot be
    formatted. *)
Lemma updateScores_js_threw s : (updateScores_js s).2 = updateScores_throws s.
Proof.
  unfold updateScores_js, updateScores_throws. cbn [snd].
  rewrite forEachRow_threw. apply existsb_Permutation, rank_Permutation.
Qed.

(** Where it does not throw it returns the state of [updateScores]. *)
Lemma updateScores_js_returns s :
  updateScores_throws s = false → updateScores_js s = (updateScores s, false).
Proof.
  intros H. unfold updateScores_js, updateScores, updateScores_throws in *.
  rewrite forEachRow_safe; [done|].
  rewrite <- (existsb_Permutation _ _ _ (rank_Permutation (runners s))) in H.
  apply Forall_forall. intros r Hr.
  destruct (row_throws (names s) (pbs s) r) eqn:Ht; [|done].
  assert (He : existsb (row_throws (names s) (pbs s)) (rank (runners s)) = true).
  { apply existsb_exists. exists r. split; [by apply list_elem_of_In|done]. }
  congruence.
Qed.

Lemma board_safe_no_throw s : board_safe s ↔ updateScores_throws s = false.
Proof.
  unfold board_safe, updateScores_throws, row_throws.
  induction (runners s) as [|r rs IH]; simpl.
  - split; [done|constructor].
  - rewrite Forall_cons, IH, orb_false_iff.
    destruct (JS.get (pbs s) (displayName (names s) r)); split; intros [H1 H2];
      (split; [done|exact H2]).
Qed.

Lemma displayName_lane ns r r' : lane r' = lane r → displayName ns r' = displayName ns r.
Proof. unfold displayName. by intros ->. Qed.

(** The board stays writable as long as the lanes and the names stay
    and no name comes to read as an inherited property. *)
Lemma board_safe_ext s s' :
  lane <$> runners s' = lane <$> runners s →
  names s' = names s →
  (∀ k, JS.get (pbs s) k ≠ JS.VObject → JS.get (pbs s') k ≠ JS.VObject) →
  board_safe s → board_safe s'.
Proof.
  intros Hl Hn Hp Hs. unfold board_safe in *. rewrite Hn.
  apply Forall_lookup. intros i r' Hi.
  assert (Hi' : (lane <$> runners s) !! i = Some (lane r')).
  { by rewrite <- Hl, list_lookup_fmap, Hi. }
  rewrite list_lookup_fmap in Hi'.
  destruct (runners s !! i) as [r|] eqn:Hr; [|done]. injection Hi' as Hi'.
  rewrite (displayName_lane _ r r') by done.
  apply Hp. by eapply (Forall_lookup_1 _ _ _ _ Hs).
Qed.

Lemma mergePBs_get_safe ns rs m k :
  JS.get m k ≠ JS.VObject → JS.get (mergePBs ns m rs) k ≠ JS.VObject.
Proof.
  unfold mergePBs. revert m. induction rs as [|r rs IH]; intros m Hm; simpl; [done|].
  apply IH. pose proof (finalizePB_get ns m r k) as Hg.
  destruct (JS.get m k) as [|p|]; [|by destruct Hg as (p' & -> & _)|done].
  by destruct Hg as [->|(t & _ & _ & ->)].
Qed.

Lemma animationLoop_board_safe tanHalfFov now aspect s :
  board_safe s → board_safe (animationLoop tanHalfFov now aspect s).
Proof.
  intros Hs. destruct (raceStarted s) eqn:Hr.
  - destruct (animationLoop_started tanHalfFov now aspect s Hr)
      as (H1 & _ & H3 & H4 & _).
    apply (board_safe_ext s); [|done| |done].
    + rewrite H1, <- list_fmap_compose. apply list_fmap_ext. intros i r _. simpl.
      unfold frameStep, advanced. destruct (finished r); [done|].
      by destruct (JS.geb _ _).
    + intros k Hk. rewrite H3. destruct (forallb _ _); [|done].
      by apply mergePBs_get_safe.
  - destruct (animationLoop_not_started tanHalfFov now aspect s Hr) as (_ & H2 & _).
    apply (board_safe_ext s); [by rewrite H2| |by intros k Hk; unfold animationLoop;
      simpl; rewrite Hr|done].
    unfold animationLoop. simpl. by rewrite Hr.
Qed.

(** X1.  While the race is running, a frame does to the array of
    runners what mapping the per-runner step over it does: finished
    runners are kept, every other runner is advanced by its speed times
    the clamped time step, and put on the line, flagged and timed with the
    elapsed time of the frame if that reaches the finish line.  This is for
    a page on which the score board can be written, that is on which no
    runner's name reads as an inherited property of the table of personal
    bests; then the in-place updates and the score-board refreshes in the
    middle of the loop do not change the result, and the board can still
    be written afterwards. *)
Theorem frame_maps_step_over_runners (tanHalfFov now aspect : Q) (s : State) :
  board_safe s →
  raceStarted s = true →
  runners (animationLoop tanHalfFov now aspect s)
  = frameStep ((now - tStart s) / 1000) (Qmin 0.05 ((now - lastT s) / 1000))
    <$> runners s
  ∧ board_safe (animationLoop tanHalfFov now aspect s).
Proof.
  intros Hb Hs. split; [|by apply animationLoop_board_safe].
  by destruct (animationLoop_started tanHalfFov now aspect s Hs) as (H & _).
Qed.

Lemma frame_maps_step_over_runners_witness :
  board_safe midRace
  ∧ raceStarted midRace = true
  ∧ runners (animationLoop 0.6008606 13540 1.5 midRace)
    = frameStep ((13540 - tStart midRace) / 1000)
                (Qmin 0.05 ((13540 - lastT midRace) / 1000))
      <$> runners midRace.
Proof.
  assert (Hb : board_safe midRace).
  { apply board_safe_no_throw. vm_compute. reflexivity. }
  split; [exact Hb|]. split; [reflexivity|].
  apply (frame_maps_step_over_runners 0.6008606 13540 1.5 midRace Hb). reflexivity.
Defined.

(** X2.  On a page on which the score board can be written (no runner's
    name reads as an inherited property of the table of personal bests),
    the race stops in a frame exactly when every runner has finished by
    the end of that frame; only then are the finish times merged into the
    personal bests, and otherwise the table is left alone. *)
Theorem race_ends_exactly_when_all_finished (tanHalfFov now aspect : Q) (s : State) :
  board_safe s →
  raceStarted s = true →
  let s' := animationLoop tanHalfFov now aspect s in
  (raceStarted s' = false ↔ Forall (λ r, finished r = true) (runners s'))
  ∧ (raceStarted s' = false → pbs s' = mergePBs (names s) (pbs s) (runners s'))
  ∧ (raceStarted s' = true → pbs s' = pbs s)
  ∧ updateScores_throws s' = false.
Proof.
  intros Hb Hs s'.
  assert (Hb' : updateScores_throws s' = false)
    by (by apply board_safe_no_throw, animationLoop_board_safe).
  cut ((raceStarted s' = false ↔ Forall (λ r, finished r = true) (runners s'))
       ∧ (raceStarted s' = false → pbs s' = mergePBs (names s) (pbs s) (runners s'))
       ∧ (raceStarted s' = true → pbs s' = pbs s)).
  { intros (H1 & H2 & H3). done. }
  destruct (animationLoop_started tanHalfFov now aspect s Hs)
    as (Hr & Hst & Hp & _).
  fold s' in Hr, Hst, Hp. rewrite <- Hr in Hst, Hp.
  destruct (forallb finished (runners s')) eqn:Hall; simpl in Hst.
  - split; [|split]; [|done|congruence].
    split; [|done]. intros _. apply Forall_forall. intros r Hin.
    rewrite forallb_forall in Hall. by apply Hall, list_elem_of_In.
  - split; [|split]; [|congruence|done].
    split; [congruence|]. intros Hf. exfalso.
    assert (forallb finished (runners s') = true); [|congruence].
    apply forallb_forall. intros r Hin.
    rewrite Forall_forall in Hf. by apply Hf, list_elem_of_In.
Qed.

Lemma race_ends_exactly_when_all_finished_witness :
  board_safe midRace
  ∧ raceStarted midRace = true
  ∧ raceStarted (animationLoop 0.6008606 13540 1.5 midRace) = false
  ∧ Forall (λ r, finished r = true) (runners (animationLoop 0.6008606 13540 1.5 midRace)).
Proof.
  assert (Hb : board_safe midRace).
  { apply board_safe_no_throw. vm_compute. reflexivity. }
  assert (H : raceStarted midRace = true) by reflexivity.
  split; [exact Hb|]. split; [exact H|]. split; [vm_compute; reflexivity|].
  apply (proj1 (race_ends_exactly_when_all_finished 0.6008606 13540 1.5 midRace Hb H)).
  vm_compute. reflexivity.
Defined.

(** X3.  In one frame no runner moves forward by more than its speed
    times 0.05 s, however long the page was stalled before the frame. *)
Theorem frame_jump_is_bounded
    (tanHalfFov now aspect : Q) (s : State) (k : nat) (r : Runner) :
  runners s !! k = Some r →
  (0 <= speed r)%Q →
  ∃ r', runners (animationLoop tanHalfFov now aspect s) !! k = Some r'
        ∧ (posZ r' <= posZ r + speed r * 0.05)%Q.
Proof.
  intros Hk Hv.
  assert (Hstep : (0 <= speed r * 0.05)%Q) by (apply Qmult_le_0_compat; lra).
  destruct (raceStarted s) eqn:Hs.
  - destruct (animationLoop_started tanHalfFov now aspect s Hs) as (-> & _).
    rewrite list_lookup_fmap, Hk. simpl. eexists. split; [done|].
    set (dt := Qmin 0.05 _).
    assert (Hdt : (speed r * dt <= speed r * 0.05)%Q).
    { rewrite !(Qmult_comm (speed r)). apply Qmult_le_compat_r; [|done].
      apply Q.le_min_l. }
    unfold frameStep, advanced. destruct (finished r); [lra|].
    destruct (JS.geb _ _) eqn:Hg; simpl; [|lra].
    apply geb_true in Hg. unfold finishZ in *. lra.
  - exists r. rewrite animationLoop_runners, Hs. split; [done|lra].
Qed.

Lemma frame_jump_is_bounded_witness :
  ∃ r', runners (animationLoop 0.6008606 99000 1.5 spreadState) !! 1%nat = Some r'
        ∧ (posZ r' <= 10 + 8 * 0.05)%Q.
Proof.
  apply (frame_jump_is_bounded 0.6008606 99000 1.5 spreadState 1
           (mkRunner "lane2" 2 "#22c55e" (-1.5) 0 10 8 false None 2.2)%Q).
  - reflexivity.
  - simpl. lra.
Defined.

(** ** The countdown, left to run *)

Lemma last_fire_lower_bound ms now ts :
  (0 <= ms)%Q → fire_times_ok ms now ts →
  (now + inject_Z (Z.of_nat (length ts)) * (ms + 120) <= last_fire now ts)%Q.
Proof.
  intros Hms. revert now. induction ts as [|[th tn] ts IH]; intros now Hok.
  - cbn [last_fire length]. change (inject_Z (Z.of_nat 0)) with 0%Q. lra.
  - destruct Hok as (H1 & H2 & H3). specialize (IH tn H3).
    cbn [last_fire length]. rewrite Nat2Z.inj_succ. unfold Z.succ.
    rewrite inject_Z_plus. change (inject_Z 1) with 1%Q. lra.
Qed.



(** X5.  A click on Start while no race is running and no timer is
    pending, followed by the eight timers of the countdown, plays "3",
    "2", "1", "GO!" and the start cue, and starts the race no earlier than
    3280 ms after the click, with every runner where it was. *)
Theorem start_click_starts_race_after_countdown
    (tanHalfFov now : Q) (s : State) (ts : FireTimes) :
  raceStarted s = false → timers s = [] →
  length ts = 4%nat →
  fire_times_ok 700 now ts →
  ∃ s', fireTimers tanHalfFov (startRace now s) ts = Some s'
        ∧ cues s' = cues s ++ [CueBeep "3"; CueBeep "2"; CueBeep "1";
                               CueBeep "GO!"; CueGunshot]
        ∧ raceStarted s' = true ∧ tStart s' = last_fire now ts
        ∧ (now + 3280 <= tStart s')%Q
        ∧ runners s' = runners s.
Proof.
  intros Hs Ht Hlen Hok. unfold startRace, countdown. rewrite Hs.
  destruct (countdown_step_runs tanHalfFov ts
              (mkCountdown ["3"; "2"; "1"; "GO!"] 700 0) now (ensureAudio s))
    as (s' & H1 & H2 & H3 & H4 & H5 & H6 & _); try done.
  exists s'. split; [exact H1|]. split; [exact H2|]. split; [exact H3|].
  split; [exact H4|]. split; [|exact H6].
  rewrite H4. assert (H700 : (0 <= 700)%Q) by lra.
  pose proof (last_fire_lower_bound 700 now ts H700 Hok) as Hb.
  rewrite Hlen in Hb. change (inject_Z (Z.of_nat 4)) with 4%Q in Hb. lra.
Qed.

Lemma start_click_starts_race_after_countdown_witness :
  ∃ s', fireTimers 0.6008606 (startRace 1000 (app page0))
          [(1700, 1820); (2520, 2640); (3340, 3460); (4160, 4280)]%Q = Some s'
        ∧ raceStarted s' = true ∧ (1000 + 3280 <= tStart s')%Q.
Proof.
  destruct (start_click_starts_race_after_countdown 0.6008606 1000 (app page0)
              [(1700, 1820); (2520, 2640); (3340, 3460); (4160, 4280)]%Q)
    as (s' & H1 & _ & H3 & _ & H5 & _); try reflexivity.
  - simpl. repeat split; lra.
  - exists s'. done.
Defined.

(** ** Reset *)

Lemma imap_resetRunner_idemp rs :
  imap resetRunner (imap resetRunner rs) = imap resetRunner rs.
Proof.
  apply list_eq. intros i. rewrite !list_lookup_imap.
  by destruct (rs !! i).
Qed.

Lemma filter_timed_none rs : Forall unfinished rs → filter timed rs = [].
Proof.
  induction 1 as [|r rs Hr _ IH]; [done|].
  rewrite filter_cons_False; [done|].
  intros [t Ht]. unfold unfinished in Hr. congruence.
Qed.

Lemma filter_unfinished_all rs : Forall unfinished rs → filter unfinished rs = rs.
Proof.
  induction 1 as [|r rs Hr _ IH]; [done|].
  rewrite filter_cons_True by done. by rewrite IH.
Qed.

(** With nobody timed the ranking is the input order. *)
Lemma rank_unfinished rs : Forall unfinished rs → rank rs = rs.
Proof.
  intros H. destruct (rank_split rs) as (-> & _ & _).
  by rewrite filter_timed_none, filter_unfinished_all.
Qed.

Lemma resetRace_fields s :
  resetRace s
  = mkState (imap resetRunner (runners s)) false (tStart s) (lastT s) (audio s)
            (names s) (pbs s) (timers s) (cues s) (countdownText s)
            (countdownVisible s) 0
            (imap (scoreRow (names s) (pbs s)) (rank (imap resetRunner (runners s))))
            (finishFlash s) (camPos s) (camLookAt s).
Proof. reflexivity. Qed.

(** X6.  On a page on which the score board can be written (no runner's
    name reads as an inherited property of the table of personal bests),
    reset is idempotent, and after a reset the score board lists the
    runners in lane order, each without a time and without a medal, and
    can still be written. *)
Theorem reset_is_idempotent_and_clears_board (s : State) :
  board_safe s →
  resetRace (resetRace s) = resetRace s
  ∧ row_lane <$> scores (resetRace s) = lane <$> runners s
  ∧ Forall (λ row, row_time row = None ∧ row_medal row = None)
           (scores (resetRace s))
  ∧ board_safe (resetRace s).
Proof.
  intros Hb.
  assert (Hun : Forall unfinished (imap resetRunner (runners s))).
  { eapply Forall_impl; [apply (resetRace_at_start s)|]. by intros r (_ & _ & H). }
  assert (Hsc : scores (resetRace s)
                = imap (scoreRow (names s) (pbs s)) (imap resetRunner (runners s))).
  { rewrite resetRace_fields. cbn [scores]. by rewrite (rank_unfinished _ Hun). }
  split; [|split; [|split]].
  - rewrite (resetRace_fields (resetRace s)). rewrite (resetRace_fields s).
    cbn [runners tStart lastT audio names pbs timers cues countdownText
         countdownVisible finishFlash camPos camLookAt].
    by rewrite imap_resetRunner_idemp.
  - rewrite Hsc. apply list_eq. intros i.
    rewrite !list_lookup_fmap, !list_lookup_imap.
    by destruct (runners s !! i).
  - rewrite Hsc. apply Forall_lookup. intros i row Hi.
    rewrite !list_lookup_imap in Hi.
    destruct (runners s !! i); [|done]. cbn in Hi. by injection Hi as <-.
  - apply (board_safe_ext s); [|done|done|done].
    rewrite resetRace_runners. apply list_eq. intros i.
    rewrite !list_lookup_fmap, list_lookup_imap.
    by destruct (runners s !! i).
Qed.

Lemma reset_is_idempotent_and_clears_board_witness :
  board_safe midRace
  ∧ resetRace (resetRace midRace) = resetRace midRace
  ∧ row_lane <$> scores (resetRace midRace) = [1; 2]%nat.
Proof.
  assert (Hb : board_safe midRace).
  { apply board_safe_no_throw. vm_compute. reflexivity. }
  destruct (reset_is_idempotent_and_clears_board midRace Hb) as (H1 & H2 & _).
  split; [exact Hb|]. split; [exact H1|exact H2].
Defined.

(** ** Personal bests over time *)

Lemma mergePBs_lookup_le ns rs : ∀ m k p,
  m !! k = Some p → ∃ p', mergePBs ns m rs !! k = Some p' ∧ (p' <= p)%Q.
Proof.
  unfold mergePBs. induction rs as [|r rs IH]; intros m k p Hk; simpl.
  - exists p. split; [done|lra].
  - destruct (finalizePB_lookup_le ns m r k p Hk) as (p1 & H1 & Hle1).
    destruct (IH _ k p1 H1) as (p2 & H2 & Hle2).
    exists p2. split; [done|lra].
Qed.

Lemma countdown_step_pbs now c s : pbs (countdown_step now c s) = pbs s.
Proof.
  unfold countdown_step, onCountdownDone, playGunshot, playCountBeep.
  destruct (_ <=? _)%nat; simpl; by destruct (audio s).
Qed.

Section PBsOverTime.
Variable tanHalfFov : Q.

Lemma handle_pbs_le e s s' k p :
  handle tanHalfFov e s = Some s' →
  pbs s !! k = Some p →
  ∃ p', pbs s' !! k = Some p' ∧ (p' <= p)%Q.
Proof.
  intros He Hk.
  assert (Hsame : pbs s' = pbs s → ∃ p', pbs s' !! k = Some p' ∧ (p' <= p)%Q).
  { intros ->. exists p. split; [done|lra]. }
  destruct e as [now aspect|now|now|now j|now vals]; simpl in He.
  - injection He as <-. destruct (raceStarted s) eqn:Hs.
    + destruct (animationLoop_started tanHalfFov now aspect s Hs)
        as (_ & _ & Hp & _).
      rewrite Hp. destruct (forallb _ _); [|exists p; split; [done|lra]].
      by apply mergePBs_lookup_le.
    + apply Hsame. unfold animationLoop. simpl. by rewrite Hs.
  - injection He as <-. apply Hsame. unfold startRace.
    destruct (raceStarted s); [done|]. unfold countdown.
    by rewrite countdown_step_pbs.
  - injection He as <-. by apply Hsame.
  - destruct (timers s !! j) as [t|]; [|done].
    destruct (Qle_bool _ _); [|done]. injection He as <-. apply Hsame.
    destruct (task t) as [c|c|]; simpl; [done| |done].
    by rewrite countdown_step_pbs.
  - injection He as <-. by apply Hsame.
Qed.

End PBsOverTime.

(** X7.  Whatever happens on the page, a personal best is never lost and
    never gets worse: a name with a record keeps a record, and the
    recorded time can only go down. *)
Theorem personal_best_never_worsens
    (tanHalfFov : Q) (w : World) (es : list Event) (w' : World) (k : string) (p : Q) :
  run tanHalfFov w es = Some w' →
  pbs (app w) !! k = Some p →
  ∃ p', pbs (app w') !! k = Some p' ∧ (p' <= p)%Q.
Proof.
  revert w p. induction es as [|e es IH]; intros w p Hrun Hk; simpl in Hrun.
  - injection Hrun as <-. exists p. split; [done|lra].
  - destruct (step tanHalfFov w e) as [w1|] eqn:Hs; [|done].
    apply step_inv in Hs as (_ & _ & Hh).
    destruct (handle_pbs_le tanHalfFov e _ _ k p Hh Hk) as (p1 & H1 & Hle1).
    destruct (IH w1 p1 Hrun H1) as (p2 & H2 & Hle2).
    exists p2. split; [done|lra].
Qed.

Lemma personal_best_never_worsens_witness :
  ∃ w', run 0.6008606 (mkWorld 13500 pbDemo) [Frame 13540 1.5] = Some w'
        ∧ pbs pbDemo !! "Lane 2" = Some 13%Q
        ∧ ∃ p', pbs (app w') !! "Lane 2" = Some p' ∧ (p' <= 13)%Q.
Proof.
  eexists. split; [vm_compute; reflexivity|]. split; [reflexivity|].
  refine (personal_best_never_worsens 0.6008606 (mkWorld 13500 pbDemo)
            [Frame 13540 1.5] _ "Lane 2" 13%Q _ _).
  - vm_compute. reflexivity.
  - reflexivity.
Defined.

(** X8.  After [finalizePBs], every runner with a finish time has under
    its name a record no larger than that time, unless the name is one
    every object inherits and had no record, in which case it still has
    none; and every record in the table is either the record that was
    there before or the finish time of a runner of that name. *)
Theorem finalize_records_cover_and_come_from_runners (s : State) :
  Forall (λ r, ∀ t, tFinish r = Some t →
            (∃ p, pbs (finalizePBs s) !! displayName (names s) r = Some p
                  ∧ (p <= t)%Q)
            ∨ (displayName (names s) r ∈ JS.objectPrototypeKeys
               ∧ pbs s !! displayName (names s) r = None
               ∧ pbs (finalizePBs s) !! displayName (names s) r = None))
         (runners s)
  ∧ ∀ k p, pbs (finalizePBs s) !! k = Some p →
           pbs s !! k = Some p
           ∨ ∃ r, r ∈ runners s ∧ displayName (names s) r = k ∧ tFinish r = Some p.
Proof.
  change (pbs (finalizePBs s)) with (mergePBs (names s) (pbs s) (runners s)).
  split.
  - eapply Forall_impl; [apply (mergePBs_covers (names s) (runners s) (pbs s))|].
    intros r Hc t Ht. unfold covered in Hc. rewrite Ht in Hc.
    destruct (JS.get _ _) as [|p|] eqn:Hg; [done| |].
    + left. exists p. split; [by apply get_number_inv|done].
    + right. apply get_object_inv in Hg as [Hn Hk]. split; [done|]. split; [|done].
      destruct (pbs s !! displayName (names s) r) as [p0|] eqn:H0; [|done].
      destruct (mergePBs_lookup_le (names s) (runners s) _ _ _ H0) as (p' & Hp' & _).
      congruence.
  - unfold mergePBs. generalize (pbs s). induction (runners s) as [|r rs IH];
      intros m k p Hk; simpl in Hk; [by left|].
    destruct (IH _ k p Hk) as [Hold|(r' & Hin & Hn & Ht)].
    + destruct (finalizePB_cases (names s) m r) as [Hsame|(t & Htr & Hw & _)].
      * rewrite Hsame in Hold. by left.
      * rewrite Hw in Hold.
        destruct (decide (displayName (names s) r = k)) as [Heq|Hne].
        -- rewrite <- Heq, lookup_insert_eq in Hold. injection Hold as <-.
           right. exists r. split; [apply elem_of_cons; by left|done].
        -- rewrite lookup_insert_ne in Hold by done. by left.
    + right. exists r'. split; [apply elem_of_cons; by right|done].
Qed.

(** ** Score board *)

(** X9.  When the score board can be written (no runner's name reads as
    an inherited property of the table of personal bests), [updateScores]
    returns without throwing; the board then has one row per runner, and medals go to
    the first rows only: row [i] carries medal [i] exactly when [i] is
    below three and below the number of runners that have a finish
    time. *)
Theorem medals_go_to_first_three_timed (s : State) :
  board_safe s →
  updateScores_throws s = false
  ∧ updateScores_js s = (updateScores s, false)
  ∧ length (scores (updateScores s)) = length (runners s)
  ∧ ∀ i row, scores (updateScores s) !! i = Some row →
      row_medal row
      = if decide (i < 3 ∧ i < length (filter timed (runners s)))%nat
        then Some i else None.
Proof.
  intros Hb. apply board_safe_no_throw in Hb.
  split; [exact Hb|]. split; [by apply updateScores_js_returns|].
  unfold updateScores. simpl. split.
  - rewrite length_imap. apply Permutation_length, rank_Permutation.
  - intros i row Hi. rewrite list_lookup_imap in Hi.
    destruct (rank (runners s) !! i) as [r|] eqn:Hr; [|done].
    injection Hi as <-. simpl.
    destruct (rank_split (runners s)) as (Heq & Ht & _).
    assert (Hlen : length (rank (filter timed (runners s)))
                   = length (filter timed (runners s)))
      by apply Permutation_length, rank_Permutation.
    rewrite Heq in Hr. rewrite <- Hlen.
    destruct (decide (i < length (rank (filter timed (runners s))))%nat) as [Hlt|Hge].
    + rewrite lookup_app_l in Hr by done.
      destruct (Forall_lookup_1 _ _ _ _ Ht Hr) as [t Htr]. rewrite Htr.
      destruct (Nat.ltb_spec i 3).
      * rewrite decide_True; [done|lia].
      * rewrite decide_False; [done|lia].
    + rewrite lookup_app_r in Hr by lia.
      apply list_elem_of_lookup_2, list_elem_of_filter in Hr as [Hu _].
      unfold unfinished in Hu. rewrite Hu.
      rewrite decide_False; [done|lia].
Qed.

Lemma medals_go_to_first_three_timed_witness :
  board_safe midRace
  ∧ length (scores (updateScores midRace)) = 2%nat
  ∧ row_medal <$> scores (updateScores midRace) = [Some 0%nat; None].
Proof.
  assert (Hb : board_safe midRace).
  { apply board_safe_no_throw. vm_compute. reflexivity. }
  destruct (medals_go_to_first_three_timed midRace Hb) as (_ & _ & Hlen & _).
  split; [exact Hb|]. split; [exact Hlen|]. vm_compute. reflexivity.
Defined.

(** ** Names *)

(** X10.  [loadNames] always yields exactly four names: the first four
    of a stored list that has at least four, and the default names when
    the store holds nothing usable or too short a list. *)
Theorem loadNames_yields_four_names (stored : option (list string)) :
  length (loadNames stored) = 4%nat
  ∧ (∀ arr, stored = Some arr → (4 <= length arr)%nat → loadNames stored = take 4 arr)
  ∧ (∀ arr, stored = Some arr → (length arr < 4)%nat → loadNames stored = defaultNames)
  ∧ (stored = None → loadNames stored = defaultNames).
Proof.
  unfold loadNames. destruct stored as [arr|]; [|by repeat split].
  destruct (Nat.leb_spec 4 (length arr)).
  - split; [rewrite length_take; lia|]. split; [|split]; [| |done].
    + by intros ? [= <-] _.
    + intros ? [= <-] ?. lia.
  - split; [done|]. split; [|split]; [| |done].
    + intros ? [= <-] ?. lia.
    + by intros ? [= <-] _.
Qed.

Lemma displayName_nonempty ns r : displayName ns r ≠ "".
Proof.
  unfold displayName, JS.or_string.
  destruct (ns !! (lane r - 1)%nat) as [[|a v]|]; done.
Qed.

(** X11.  The display name of a runner is never the empty string: an
    empty or missing entry of the name table falls back to "Lane N", and
    a non-empty entry is used as it is.  So [finalizePBs] never files a
    record under the empty name. *)
Theorem display_name_never_empty (s : State) (r : Runner) :
  displayName (names s) r ≠ ""
  ∧ (∀ v, names s !! (lane r - 1)%nat = Some v → v ≠ "" →
          displayName (names s) r = v)
  ∧ (names s !! (lane r - 1)%nat = None ∨ names s !! (lane r - 1)%nat = Some "" →
     displayName (names s) r = "Lane " +:+ pretty (lane r))
  ∧ pbs (finalizePBs s) !! "" = pbs s !! "".
Proof.
  split; [apply displayName_nonempty|]. split; [|split].
  - intros v Hv Hne. unfold displayName. rewrite Hv.
    destruct v; [done|reflexivity].
  - intros [H|H]; unfold displayName; by rewrite H.
  - change (pbs (finalizePBs s)) with (mergePBs (names s) (pbs s) (runners s)).
    unfold mergePBs. generalize (pbs s).
    induction (runners s) as [|x rs IH]; intros m; simpl; [done|].
    rewrite IH.
    pose proof (displayName_nonempty (names s) x) as Hne.
    destruct (finalizePB_cases (names s) m x) as [->|(t & _ & -> & _)]; [done|].
    by rewrite lookup_insert_ne.
Qed.

(** ** Camera *)

Lemma Qmax_left x y : (y < x)%Q → Qmax x y = x.
Proof.
  intros H. unfold Qmax, GenericMinMax.gmax.
  destruct (x ?= y)%Q eqn:E; [done| |done].
  apply Qlt_alt in E. lra.
Qed.

Lemma animationLoop_camPos tanHalfFov now aspect s :
  camPos (animationLoop tanHalfFov now aspect s)
  = camPos (fitCameraToTrack tanHalfFov aspect (averageZ (runners s)) s)
  ∧ camLookAt (animationLoop tanHalfFov now aspect s)
    = camLookAt (fitCameraToTrack tanHalfFov aspect (averageZ (runners s)) s).
Proof.
  unfold animationLoop. simpl. destruct (raceStarted s); [|done].
  set (s1 := set_timerText _ _).
  pose proof (advanceLoop_untouched now ((now - tStart s) / 1000)
                (Qmin 0.05 ((now - lastT s) / 1000))
                (seq 0 (length (runners s))) s1) as Hu.
  unfold loop_untouched in Hu. simpl in Hu.
  injection Hu as _ _ _ _ _ _ _ _ _ _ H11 H12.
  match goal with |- context [forallb finished ?l] => destruct (forallb finished l) end;
    simpl; by rewrite H11, H12.
Qed.

(** X12.  For a positive tangent of the half field of view and a
    positive aspect ratio, every frame moves the camera by
    [lerp(target, 0.12)] towards a target on the centre line that is
    exactly 5 m high (the clamp of the distance keeps the height term
    d * 0.28 below the floor of 5) and lies d * 0.8 behind the point the
    camera looks at, with d between 7 and 16; that point is two metres
    ahead of the rearmost runner at height 1.6.  The camera never
    overshoots: each coordinate of its new position lies between the old
    one and the target. *)
Theorem camera_closes_gap_to_target (tanHalfFov now aspect : Q) (s : State) :
  (0 < tanHalfFov)%Q → (0 < aspect)%Q →
  let d := cameraDistance tanHalfFov aspect in
  let focus := focusZ (averageZ (runners s)) (runners s) in
  let target : Vec3 := (0, 5, focus + 2 - d * 0.8)%Q in
  let s' := animationLoop tanHalfFov now aspect s in
  camPos s' = lerp (camPos s) target 0.12
  ∧ camLookAt s' = (0, 1.6, focus + 2)%Q
  ∧ (focus + 2 - 16 * 0.8 <= focus + 2 - d * 0.8 <= focus + 2 - 7 * 0.8)%Q
  ∧ between (camPos s).1.1 0 (camPos s').1.1
  ∧ between (camPos s).1.2 5 (camPos s').1.2
  ∧ between (camPos s).2 (focus + 2 - d * 0.8) (camPos s').2.
Proof.
  intros _ _ d focus target s'.
  destruct (animationLoop_camPos tanHalfFov now aspect s) as [Hp Hl].
  pose proof (cameraDistance_bounds tanHalfFov aspect) as [Hd1 Hd2]. fold d in Hd1, Hd2.
  assert (Hpos : camPos s' = lerp (camPos s) target 0.12).
  { subst s'. rewrite Hp. unfold fitCameraToTrack. simpl. fold d focus.
    rewrite Qmax_left by lra. reflexivity. }
  split; [exact Hpos|]. split; [subst s'; by rewrite Hl|].
  split; [lra|]. rewrite Hpos. destruct (camPos s) as [[x y] z]. simpl.
  unfold between.
  assert (Hb : ∀ a v : Q, (a <= a + (v - a) * 0.12 <= v)%Q
                          ∨ (v <= a + (v - a) * 0.12 <= a)%Q).
  { intros a v. destruct (Qlt_le_dec v a); [right|left]; lra. }
  repeat split; apply Hb.
Qed.

Lemma camera_closes_gap_to_target_witness :
  (0 < 0.6008606)%Q ∧ (0 < 1.5)%Q
  ∧ camLookAt (animationLoop 0.6008606 50 1.5 spreadState) = (0, 1.6, 0 + 2)%Q.
Proof.
  assert (HT : (0 < 0.6008606)%Q) by lra.
  assert (Ha : (0 < 1.5)%Q) by lra.
  split; [exact HT|]. split; [exact Ha|].
  exact (proj1 (proj2 (camera_closes_gap_to_target 0.6008606 50 1.5 spreadState HT Ha))).
Defined.

(** ** The score board is up to date *)

Lemma insert_fmap_key x l :
  boardKey <$> JS.insert compareFn x l
  = JS.insert compareKey (boardKey x) (boardKey <$> l).
Proof.
  induction l as [|y l IH]; [done|]. cbn [JS.insert fmap list_fmap].
  change (compareKey (boardKey x) (boardKey y)) with (compareFn x y).
  destruct (Qle_bool (compareFn x y) 0); [done|].
  cbn [fmap list_fmap]. f_equal. exact IH.
Qed.

(** Sorting looks at the finish times only. *)
Lemma rank_fmap_key rs :
  boardKey <$> rank rs = JS.Array_sort compareKey (boardKey <$> rs).
Proof.
  unfold rank. induction rs as [|x rs IH]; [done|].
  cbn [JS.Array_sort fmap list_fmap]. rewrite insert_fmap_key. by rewrite IH.
Qed.

Lemma scoreRow_key ns m i a b :
  boardKey a = boardKey b → scoreRow ns m i a = scoreRow ns m i b.
Proof.
  unfold boardKey, scoreRow, displayName. intros [= Hl Ht]. by rewrite Hl, Ht.
Qed.

Lemma imap_scoreRow_key ns m l l' :
  boardKey <$> l = boardKey <$> l' →
  imap (scoreRow ns m) l = imap (scoreRow ns m) l'.
Proof.
  intros H. apply list_eq. intros i. rewrite !list_lookup_imap.
  assert (Hi : (boardKey <$> l) !! i = (boardKey <$> l') !! i) by (by rewrite H).
  rewrite !list_lookup_fmap in Hi.
  destruct (l !! i) as [a|], (l' !! i) as [b|]; simpl in *; try done.
  f_equal. apply scoreRow_key. unfold boardKey in *. congruence.
Qed.

(** The board does not change with the runners' positions. *)
Lemma board_key s s' :
  boardKey <$> runners s = boardKey <$> runners s' →
  names s = names s' → pbs s = pbs s' → board s = board s'.
Proof.
  intros Hk Hn Hp. unfold board. rewrite <- Hn, <- Hp.
  apply imap_scoreRow_key. by rewrite !rank_fmap_key, Hk.
Qed.

Lemma updateScores_fresh s : board_fresh (updateScores s).
Proof. reflexivity. Qed.

Lemma advanceRunner_fresh now elapsed dt s k :
  board_fresh s → board_fresh (advanceRunner now elapsed dt s k).
Proof.
  intros Hs. unfold advanceRunner.
  destruct (runners s !! k) as [r|] eqn:Hk; [|done].
  destruct (finished r) eqn:Hf; [done|].
  destruct (JS.geb _ _); [apply updateScores_fresh|].
  unfold board_fresh. cbn [scores set_runners]. rewrite Hs.
  apply board_key; [|done|done]. cbn [runners set_runners].
  rewrite list_fmap_insert. symmetry. apply list_insert_id.
  by rewrite list_lookup_fmap, Hk.
Qed.

Lemma advanceLoop_fresh now elapsed dt ks s :
  board_fresh s → board_fresh (foldl (advanceRunner now elapsed dt) s ks).
Proof.
  revert s. induction ks as [|k ks IH]; intros s Hs; simpl; [done|].
  by apply IH, advanceRunner_fresh.
Qed.

Lemma countdown_step_board_inputs now c s :
  board_inputs (countdown_step now c s) = board_inputs s.
Proof.
  unfold countdown_step, onCountdownDone, playGunshot, playCountBeep.
  destruct (_ <=? _)%nat; simpl; by destruct (audio s).
Qed.

Lemma board_inputs_fresh s s' :
  board_inputs s' = board_inputs s → board_fresh s → board_fresh s'.
Proof.
  unfold board_inputs, board_fresh, board. intros [= -> -> -> ->]. done.
Qed.

Section BoardFresh.
Variable tanHalfFov : Q.

Lemma handle_fresh e s s' :
  handle tanHalfFov e s = Some s' → board_fresh s → board_fresh s'.
Proof.
  intros He Hs.
  destruct e as [now aspect|now|now|now k|now vals]; simpl in He.
  - injection He as <-. unfold animationLoop. cbn zeta.
    set (s1 := fitCameraToTrack _ _ _ _).
    assert (H1 : board_fresh s1) by exact Hs.
    destruct (raceStarted s1); [|done].
    set (s2 := set_timerText _ s1).
    assert (H2 : board_fresh s2) by exact H1.
    set (s3 := foldl _ s2 _).
    assert (H3 : board_fresh s3) by (by apply advanceLoop_fresh).
    destruct (forallb finished (runners s3)); [apply updateScores_fresh|done].
  - injection He as <-. unfold startRace. destruct (raceStarted s); [done|].
    eapply board_inputs_fresh; [apply countdown_step_board_inputs|done].
  - injection He as <-. apply updateScores_fresh.
  - destruct (timers s !! k) as [t|]; [|done].
    destruct (Qle_bool _ _); [|done]. injection He as <-.
    destruct (task t) as [c|c|]; simpl; [done| |done].
    eapply board_inputs_fresh; [apply countdown_step_board_inputs|done].
  - injection He as <-. apply updateScores_fresh.
Qed.

End BoardFresh.

Lemma lane_label_ordinary (n : nat) : ordinary ("Lane " +:+ pretty n).
Proof.
  unfold ordinary, JS.objectPrototypeKeys. rewrite !elem_of_cons.
  intros H. repeat (destruct H as [H|H]; [discriminate H|]).
  by apply not_elem_of_nil in H.
Qed.

Lemma displayName_ordinary ns r : Forall ordinary ns → ordinary (displayName ns r).
Proof.
  intros Hns. unfold displayName, JS.or_string.
  destruct (ns !! (lane r - 1)%nat) as [v|] eqn:Hv; [|apply lane_label_ordinary].
  destruct v as [|a v]; [apply lane_label_ordinary|].
  by eapply Forall_lookup_1.
Qed.

(** With ordinary names every row of the board can be formatted. *)
Lemma ordinary_board_safe s : Forall ordinary (names s) → board_safe s.
Proof.
  intros Hns. apply Forall_forall. intros r _ Hg.
  apply get_object_inv in Hg as [_ Hk].
  by apply (displayName_ordinary (names s) r Hns).
Qed.

Section NamesOverTime.
Variable tanHalfFov : Q.

Lemma handle_names e s s' :
  handle tanHalfFov e s = Some s' →
  names s' = match e with SaveNames _ vals => vals | _ => names s end.
Proof.
  destruct e as [now aspect|now|now|now k|now vals]; simpl.
  - intros [= <-]. destruct (raceStarted s) eqn:Hr.
    + by destruct (animationLoop_started tanHalfFov now aspect s Hr)
        as (_ & _ & _ & H & _).
    + unfold animationLoop. simpl. by rewrite Hr.
  - intros [= <-]. unfold startRace. destruct (raceStarted s); [done|].
    unfold countdown.
    pose proof (countdown_step_board_inputs now
                  (mkCountdown ["3"; "2"; "1"; "GO!"] 700 0) (ensureAudio s)) as H.
    by apply (f_equal (λ x, x.1.1.2)) in H.
  - by intros [= <-].
  - destruct (timers s !! k) as [t|]; [|done].
    destruct (Qle_bool _ _); [|done]. intros [= <-].
    destruct (task t) as [c|c|]; simpl; [done| |done].
    pose proof (countdown_step_board_inputs now c
                  (set_timers (delete k (timers s)) s)) as H.
    by apply (f_equal (λ x, x.1.1.2)) in H.
  - by intros [= <-].
Qed.

Lemma run_names_ordinary es : ∀ w w',
  Forall saves_ordinary es →
  run tanHalfFov w es = Some w' →
  Forall ordinary (names (app w)) → Forall ordinary (names (app w')).
Proof.
  induction es as [|e es IH]; intros w w' Hes Hrun Hw; simpl in Hrun.
  - by injection Hrun as <-.
  - apply Forall_cons in Hes as [He Hes].
    destruct (step tanHalfFov w e) as [w1|] eqn:Hs; [|done].
    apply (IH w1 w' Hes Hrun).
    apply step_inv in Hs as (_ & _ & Hh). rewrite (handle_names _ _ _ Hh).
    by destruct e.
Qed.

End NamesOverTime.

(** X13.  On a page whose names, those read from the store and every
    list of names saved later, contain no inherited property name, the
    score board can always be written, and in every state the page can
    reach it is the one [updateScores] would write from the current
    runners, names and personal bests: refreshing it would change
    nothing.  (The loop refreshes it only when a runner finishes; the
    frames in between move runners without changing a row.) *)
Theorem score_board_is_always_up_to_date
    (tanHalfFov t0 : Q) (rand : nat → Q) (storedNames : option (list string))
    (storedPBs : option (gmap string Q)) (es : list Event) (w : World) :
  Forall ordinary (loadNames storedNames) →
  Forall saves_ordinary es →
  run tanHalfFov (init t0 rand storedNames storedPBs) es = Some w →
  board_safe (app w)
  ∧ updateScores_throws (app w) = false
  ∧ scores (app w) = scores (updateScores (app w))
  ∧ updateScores (app w) = app w.
Proof.
  intros Hns Hes Hrun.
  assert (Hb : board_safe (app w)).
  { apply ordinary_board_safe.
    by apply (run_names_ordinary tanHalfFov es _ _ Hes Hrun). }
  assert (H : board_fresh (app w)).
  { apply (run_invariant tanHalfFov (λ w, board_fresh (app w)) _ _ _) in Hrun;
      [done| |apply updateScores_fresh].
    intros w1 e w2 H1 Hs. apply step_inv in Hs as (_ & _ & Hh).
    by eapply handle_fresh. }
  split; [exact Hb|]. split; [by apply board_safe_no_throw|].
  split; [exact H|].
  unfold updateScores. fold (board (app w)). rewrite <- H.
  by destruct (app w).
Qed.

Lemma score_board_is_always_up_to_date_witness :
  Forall ordinary (loadNames None)
  ∧ Forall saves_ordinary
      ([ClickStart 1000] ++ countdownEvents 1000 ++ frameEvents 4280 3)
  ∧ ∃ w, raceDemo = Some w ∧ updateScores (app w) = app w.
Proof.
  assert (Hns : Forall ordinary (loadNames None)).
  { unfold ordinary. apply (bool_decide_unpack _). vm_compute. exact I. }
  assert (Hes : Forall saves_ordinary
                  ([ClickStart 1000] ++ countdownEvents 1000 ++ frameEvents 4280 3)).
  { apply Forall_forall. intros e He.
    repeat (apply elem_of_cons in He as [->|He]; [exact I|]).
    by apply not_elem_of_nil in He. }
  split; [exact Hns|]. split; [exact Hes|].
  eexists. split.
  - vm_compute. reflexivity.
  - refine (proj2 (proj2 (proj2 (score_board_is_always_up_to_date 0.6008606 0 draws0
              None None
              ([ClickStart 1000] ++ countdownEvents 1000 ++ frameEvents 4280 3)
              _ Hns Hes _)))).
    vm_compute. reflexivity.
Defined.

(** ** When the race starts *)

(** X14.  The race starts in one way only: [raceStarted] goes from false
    to true when, and only when, the step timer of a countdown that has
    no label left fires; the start time is then the time of that event.
    No frame, click or name edit starts it. *)
Theorem race_starts_only_on_last_countdown_step
    (tanHalfFov : Q) (e : Event) (s s' : State) :
  handle tanHalfFov e s = Some s' →
  raceStarted s = false → raceStarted s' = true →
  ∃ now k t c, e = Timeout now k
               ∧ timers s !! k = Some (mkTimer t (TStep c))
               ∧ (t <= now)%Q
               ∧ cd_labels c !! cd_i c = None
               ∧ tStart s' = now.
Proof.
  intros He Hs Hs'.
  destruct e as [now aspect|now|now|now k|now vals]; simpl in He.
  - injection He as <-.
    destruct (animationLoop_not_started tanHalfFov now aspect s Hs) as (H & _).
    congruence.
  - injection He as <-. unfold startRace in Hs'. rewrite Hs in Hs'.
    unfold countdown, countdown_step, playCountBeep in Hs'. simpl in Hs'.
    congruence.
  - injection He as <-. done.
  - destruct (timers s !! k) as [[t tk]|] eqn:Hk; [|done]. simpl in He.
    destruct (Qle_bool t now) eqn:Ht; [|done]. apply Qle_bool_iff in Ht.
    injection He as <-. destruct tk as [c|c|]; simpl in Hs'; try congruence.
    unfold countdown_step in *.
    destruct (Nat.leb_spec (length (cd_labels c)) (cd_i c)) as [Hge|Hlt].
    + exists now, k, t, c. split; [done|]. split; [done|]. split; [done|].
      split; [by apply lookup_ge_None|].
      simpl. unfold countdown_step.
      rewrite (proj2 (Nat.leb_le _ _) Hge).
      unfold onCountdownDone, playGunshot. simpl. by destruct (audio s).
    + unfold playCountBeep in Hs'. simpl in Hs'.
      destruct (audio s); simpl in Hs'; congruence.
  - injection He as <-. simpl in Hs'. congruence.
Qed.

Lemma race_starts_only_on_last_countdown_step_witness :
  ∃ s', handle 0.6008606 (Timeout 4280 0) lastStepPending = Some s'
        ∧ raceStarted lastStepPending = false ∧ raceStarted s' = true
        ∧ ∃ now k t c, Timeout 4280 0 = Timeout now k
                       ∧ timers lastStepPending !! k = Some (mkTimer t (TStep c))
                       ∧ (t <= now)%Q
                       ∧ cd_labels c !! cd_i c = None
                       ∧ tStart s' = now.
Proof.
  eexists. split; [reflexivity|]. split; [reflexivity|]. split; [reflexivity|].
  refine (race_starts_only_on_last_countdown_step 0.6008606 (Timeout 4280 0)
            lastStepPending _ _ _ _); reflexivity.
Defined.

(** ** Runners keep their identity and their lane *)

Section LaneFacts.
Variable tanHalfFov : Q.

Lemma animationLoop_fmap {A} (f : Runner → A) now aspect s :
  (∀ elapsed dt r, f (advanced elapsed dt r) = f r) →
  f <$> runners (animationLoop tanHalfFov now aspect s) = f <$> runners s.
Proof.
  intros Hadv. rewrite animationLoop_runners.
  destruct (raceStarted s); [|done]. by rewrite advanceLoop_fmap.
Qed.

Lemma handle_place e s s' :
  handle tanHalfFov e s = Some s' →
  (λ r, (posX r, posY r)) <$> runners s = (λ x, (x, 0%Q)) <$> lanes →
  (λ r, (posX r, posY r)) <$> runners s' = (λ x, (x, 0%Q)) <$> lanes.
Proof.
  intros He Hs.
  destruct e as [now aspect|now|now|now k|now vals];
    try (apply handle_runners_other in He; simpl in He; by rewrite He).
  - simpl in He. injection He as <-. rewrite animationLoop_fmap; [done|].
    intros elapsed dt r. unfold advanced. by destruct (JS.geb _ _).
  - simpl in He. injection He as <-. rewrite resetRace_runners.
    assert (Hlen : length (runners s) = 4%nat).
    { apply (f_equal length) in Hs. by rewrite !length_fmap in Hs. }
    destruct (runners s) as [|a [|b [|c [|d [|]]]]]; try done.
Qed.

End LaneFacts.

(** X15.  In every state the page can reach there are four runners, and
    the runner at index i is the one loaded for lane i+1: same id, lane
    number and colour, standing at x = lanes[i] on the ground (y = 0).
    Only z ever changes. *)
Theorem runners_stay_in_their_lanes
    (tanHalfFov t0 : Q) (rand : nat → Q) (storedNames : option (list string))
    (storedPBs : option (gmap string Q)) (es : list Event) (w : World) :
  run tanHalfFov (init t0 rand storedNames storedPBs) es = Some w →
  (λ r, (id r, lane r, color r)) <$> runners (app w)
  = [("lane1", 1%nat, "#ef4444"); ("lane2", 2%nat, "#22c55e");
     ("lane3", 3%nat, "#3b82f6"); ("lane4", 4%nat, "#eab308")]
  ∧ (λ r, (posX r, posY r)) <$> runners (app w) = (λ x, (x, 0%Q)) <$> lanes.
Proof.
  intros Hrun. split.
  - apply (run_invariant tanHalfFov
             (λ w, (λ r, (id r, lane r, color r)) <$> runners (app w)
                   = (λ r, (id r, lane r, color r)) <$> loadRunners rand) _ _ _)
      in Hrun; [exact Hrun| |done].
    intros w1 e w2 Hw1 Hs. apply step_inv in Hs as (_ & _ & Hh).
    rewrite <- Hw1. eapply handle_runners_fmap; [| |exact Hh].
    + intros elapsed dt r. unfold advanced. by destruct (JS.geb _ _).
    + done.
  - apply (run_invariant tanHalfFov
             (λ w, (λ r, (posX r, posY r)) <$> runners (app w)
                   = (λ x, (x, 0%Q)) <$> lanes) _ _ _)
      in Hrun; [exact Hrun| |done].
    intros w1 e w2 Hw1 Hs. apply step_inv in Hs as (_ & _ & Hh).
    by eapply handle_place.
Qed.

Lemma runners_stay_in_their_lanes_witness :
  ∃ w, raceDemo = Some w
       ∧ (λ r, (posX r, posY r)) <$> runners (app w) = (λ x, (x, 0%Q)) <$> lanes.
Proof.
  eexists. split.
  - vm_compute. reflexivity.
  - refine (proj2 (runners_stay_in_their_lanes 0.6008606 0 draws0 None None
              ([ClickStart 1000] ++ countdownEvents 1000 ++ frameEvents 4280 3)
              _ _)).
    vm_compute. reflexivity.
Defined.

(** ** Camera distance and the aspect ratio *)

Lemma halfWidth_pos : (0 < halfWidth)%Q.
Proof. reflexivity. Qed.

Lemma Qdiv_antitone (h x y : Q) :
  (0 <= h)%Q → (0 < x)%Q → (x <= y)%Q → (h / y <= h / x)%Q.
Proof.
  intros Hh Hx Hxy.
  assert (Hy : (0 < y)%Q) by lra.
  apply Qle_shift_div_l; [done|].
  assert (Hq : (0 <= h / y)%Q) by (apply Qle_shift_div_l; [done|lra]).
  assert (Heq : (h / y * y == h)%Q) by (field; lra).
  assert (Hm : (h / y * x <= h / y * y)%Q).
  { rewrite !(Qmult_comm (h / y)). by apply Qmult_le_compat_r. }
  lra.
Qed.

Lemma clamp_monotone v v' lo hi :
  (v <= v')%Q → (JS.clamp v lo hi <= JS.clamp v' lo hi)%Q.
Proof.
  intros H. unfold JS.clamp.
  apply Q.max_le_compat_l, Q.min_le_compat_l, H.
Qed.

Lemma clamp_inside v lo hi :
  (lo <= v <= hi)%Q → (JS.clamp v lo hi == v)%Q.
Proof.
  intros [H1 H2]. unfold JS.clamp.
  rewrite (Q.min_r hi v) by done. by apply Q.max_r.
Qed.

(** X16.  For a positive tangent and positive aspect ratios, the camera
    distance is the distance that fits the track,
    halfWidth / (tan * aspect), whenever that lies between 7 and 16; it is
    16 when the fit asks for more (narrow viewports, where the track then
    does not fit) and 7 when it asks for less; and a wider viewport never
    puts the camera farther away. *)
Theorem camera_distance_follows_fit_and_aspect (tanHalfFov a1 a2 : Q) :
  (0 < tanHalfFov)%Q → (0 < a1)%Q → (a1 <= a2)%Q →
  let fit := λ a, (halfWidth / (tanHalfFov * a))%Q in
  (cameraDistance tanHalfFov a2 <= cameraDistance tanHalfFov a1)%Q
  ∧ ((7 <= fit a1 <= 16)%Q → (cameraDistance tanHalfFov a1 == fit a1)%Q)
  ∧ ((16 <= fit a1)%Q → (cameraDistance tanHalfFov a1 == 16)%Q)
  ∧ ((fit a1 <= 7)%Q → (cameraDistance tanHalfFov a1 == 7)%Q).
Proof.
  intros HT Ha Hle fit. unfold cameraDistance. fold halfWidth. cbn zeta.
  change (halfWidth / (tanHalfFov * a1))%Q with (fit a1).
  change (halfWidth / (tanHalfFov * a2))%Q with (fit a2).
  split; [|split; [|split]].
  - apply clamp_monotone. unfold fit.
    pose proof halfWidth_pos.
    apply Qdiv_antitone; [lra| |].
    + apply Qmult_lt_0_compat; lra.
    + rewrite !(Qmult_comm tanHalfFov). apply Qmult_le_compat_r; lra.
  - apply clamp_inside.
  - intros H. unfold JS.clamp. rewrite (Q.min_l 16 (fit a1)) by done.
    apply Q.max_r. lra.
  - intros H. unfold JS.clamp. apply Q.max_l.
    pose proof (Q.le_min_r 16 (fit a1)). lra.
Qed.

Lemma camera_distance_follows_fit_and_aspect_witness :
  (0 < 0.6008606)%Q ∧ (0 < 1)%Q ∧ (1 <= 1.5)%Q
  ∧ (cameraDistance 0.6008606 1.5 <= cameraDistance 0.6008606 1)%Q.
Proof.
  split; [lra|]. split; [lra|]. split; [lra|].
  apply (camera_distance_follows_fit_and_aspect 0.6008606 1 1.5); lra.
Defined.

(** ** The finish flash and its timer *)

Lemma filter_flash_cleared ts :
  filter (λ t, is_flash_timer t = true) (filter (λ t, is_flash_timer t = false) ts) = [].
Proof.
  induction ts as [|t ts IH]; [done|].
  rewrite (filter_cons (λ t, is_flash_timer t = false)).
  destruct (decide (is_flash_timer t = false)) as [Hf|Hf]; [|done].
  rewrite filter_cons_False; [done|]. congruence.
Qed.

Lemma filter_flash_delete ts k t :
  ts !! k = Some t →
  filter (λ t, is_flash_timer t = true) ts
  = if is_flash_timer t
    then filter (λ t, is_flash_timer t = true) (take k ts)
         ++ t :: filter (λ t, is_flash_timer t = true) (drop (S k) ts)
    else filter (λ t, is_flash_timer t = true) (delete k ts).
Proof.
  intros Hk. rewrite delete_take_drop.
  rewrite <- (take_drop_middle ts k t Hk) at 1.
  rewrite !filter_app, filter_cons.
  destruct (is_flash_timer t) eqn:Hf.
  - by rewrite decide_True.
  - by rewrite decide_False.
Qed.

Lemma flashCount_delete s k t :
  timers s !! k = Some t →
  flashCount s
  = ((if is_flash_timer t then 1 else 0)
     + flashCount (set_timers (delete k (timers s)) s))%nat.
Proof.
  intros Hk. unfold flashCount. cbn [timers set_timers].
  rewrite (filter_flash_delete _ _ _ Hk), delete_take_drop, filter_app.
  destruct (is_flash_timer t); rewrite ?length_app; simpl; lia.
Qed.

Lemma flashCount_setTimeout now delay tk s :
  match tk with TFlashOff => False | _ => True end →
  flashCount (setTimeout now delay tk s) = flashCount s.
Proof.
  intros Htk. unfold flashCount, setTimeout. cbn [timers set_timers].
  rewrite filter_app, length_app.
  rewrite filter_cons_False; [simpl; lia|].
  unfold is_flash_timer. simpl. by destruct tk.
Qed.

Lemma flashFinish_ok now s : flash_ok (flashFinish now s).
Proof.
  assert (H : flashCount (flashFinish now s) = 1%nat).
  { unfold flashCount, flashFinish, setTimeout. cbn [timers set_timers set_finishFlash].
    by rewrite filter_app, filter_flash_cleared. }
  split; [lia|done].
Qed.

Lemma advanceRunner_flash_ok now elapsed dt s k :
  flash_ok s → flash_ok (advanceRunner now elapsed dt s k).
Proof.
  intros Hs. unfold advanceRunner.
  destruct (runners s !! k) as [r|]; [|done].
  destruct (finished r); [done|].
  destruct (JS.geb _ _); [|done].
  exact (flashFinish_ok now (set_runners _ s)).
Qed.

Lemma advanceLoop_flash_ok now elapsed dt ks s :
  flash_ok s → flash_ok (foldl (advanceRunner now elapsed dt) s ks).
Proof.
  revert s. induction ks as [|k ks IH]; intros s Hs; simpl; [done|].
  by apply IH, advanceRunner_flash_ok.
Qed.

Lemma countdown_step_flash now c s :
  flashCount (countdown_step now c s) = flashCount s
  ∧ finishFlash (countdown_step now c s) = finishFlash s.
Proof.
  unfold countdown_step, onCountdownDone, playGunshot, playCountBeep.
  destruct (_ <=? _)%nat.
  - simpl. by destruct (audio s).
  - split; [|simpl; by destruct (audio s)].
    rewrite flashCount_setTimeout by done. simpl. by destruct (audio s).
Qed.

Section FlashFacts.
Variable tanHalfFov : Q.

Lemma handle_flash_ok e s s' :
  handle tanHalfFov e s = Some s' → flash_ok s → flash_ok s'.
Proof.
  intros He Hs.
  destruct e as [now aspect|now|now|now k|now vals]; simpl in He.
  - injection He as <-. unfold animationLoop. cbn zeta.
    set (s1 := fitCameraToTrack _ _ _ _).
    assert (H1 : flash_ok s1) by exact Hs.
    destruct (raceStarted s1); [|done].
    set (s2 := set_timerText _ s1).
    assert (H2 : flash_ok s2) by exact H1.
    set (s3 := foldl _ s2 _).
    assert (H3 : flash_ok s3) by (by apply advanceLoop_flash_ok).
    destruct (forallb finished (runners s3)); exact H3.
  - injection He as <-. unfold startRace. destruct (raceStarted s); [done|].
    unfold countdown.
    destruct (countdown_step_flash now (mkCountdown ["3"; "2"; "1"; "GO!"] 700 0)
                (ensureAudio s)) as [Hc Hf].
    unfold flash_ok. rewrite Hc, Hf. exact Hs.
  - injection He as <-. exact Hs.
  - destruct (timers s !! k) as [t|] eqn:Hk; [|done].
    destruct (Qle_bool _ _); [|done]. injection He as <-.
    pose proof (flashCount_delete s k t Hk) as Hd.
    destruct Hs as [Hle Hon].
    destruct t as [t0 [c|c|]]; unfold is_flash_timer in Hd; simpl in Hd |- *.
    + unfold countdown_hide, flash_ok.
      rewrite flashCount_setTimeout by done.
      change (finishFlash (setTimeout _ _ _ _)) with (finishFlash s).
      change (flashCount (set_countdownVisible _ ?x)) with (flashCount x).
      rewrite <- Hd. done.
    + destruct (countdown_step_flash now c (set_timers (delete k (timers s)) s))
        as [Hc Hf].
      unfold flash_ok. rewrite Hc, Hf, <- Hd. done.
    + split; [|done].
      change (flashCount (set_finishFlash _ ?x)) with (flashCount x). lia.
  - injection He as <-. exact Hs.
Qed.

End FlashFacts.

(** X17.  In every state the page can reach, at most one timer that
    removes the finish flash is pending, and exactly one is pending
    whenever the flash is showing: a flash is never left on for good, and
    a new finish replaces the pending timer instead of adding one. *)
Theorem finish_flash_has_one_timer
    (tanHalfFov t0 : Q) (rand : nat → Q) (storedNames : option (list string))
    (storedPBs : option (gmap string Q)) (es : list Event) (w : World) :
  run tanHalfFov (init t0 rand storedNames storedPBs) es = Some w →
  (flashCount (app w) <= 1)%nat
  ∧ (finishFlash (app w) = true → flashCount (app w) = 1%nat).
Proof.
  intros Hrun.
  apply (run_invariant tanHalfFov (λ w, flash_ok (app w)) _ _ _) in Hrun;
    [exact Hrun| |].
  - intros w1 e w2 H1 Hs. apply step_inv in Hs as (_ & _ & Hh).
    by eapply handle_flash_ok.
  - split; [|done].
    change (flashCount (app (init t0 rand storedNames storedPBs))) with 0%nat. lia.
Qed.

Lemma finish_flash_has_one_timer_witness :
  ∃ w, raceDemo = Some w ∧ (flashCount (app w) <= 1)%nat.
Proof.
  eexists. split.
  - vm_compute. reflexivity.
  - refine (proj1 (finish_flash_has_one_timer 0.6008606 0 draws0 None None
              ([ClickStart 1000] ++ countdownEvents 1000 ++ frameEvents 4280 3)
              _ _)).
    vm_compute. reflexivity.
Defined.

(** Two runners finishing in the same frame: the flash is on and a single
    timer, set by the second finish, will remove it. *)
Example two_finishes_one_flash_timer :
  let s := set_runners
             [ mkRunner "lane1" 1 "#ef4444" (-4.5) 0 99.9 8 false None 2.2;
               mkRunner "lane2" 2 "#22c55e" (-1.5) 0 99.8 7 false None 2.2 ]%Q
             midRace in
  let s' := animationLoop 0.6008606 13550 1.5 s in
  finishFlash s' = true ∧ flashCount s' = 1%nat ∧ length (timers s') = 1%nat
  ∧ finished <$> runners s' = [true; true].
Proof. vm_compute. done. Qed.

(** ** Settings panel *)

(** X18.  A click on the settings button leaves the panel either shown
    or hidden; it shows a panel that was hidden or whose display was
    never set and hides any other; a second click undoes the first on a
    panel that was shown or hidden.  It never leaves a name input empty:
    each input gets the name the score board uses for the runner of its
    lane. *)
Theorem settings_click_toggles_and_fills_names (ns ns' : list string) (p : Panel) :
  (panelDisplay (settingsClick ns p) = "block"
   ∨ panelDisplay (settingsClick ns p) = "none")
  ∧ (panelDisplay (settingsClick ns p) = "block"
     ↔ panelDisplay p = "none" ∨ panelDisplay p = "")
  ∧ (panelDisplay p = "none" ∨ panelDisplay p = "block" →
     panelDisplay (settingsClick ns' (settingsClick ns p)) = panelDisplay p)
  ∧ length (inputValues (settingsClick ns p)) = length (inputValues p)
  ∧ ∀ i v, inputValues (settingsClick ns p) !! i = Some v →
           v ≠ "" ∧ ∀ r, lane r = S i → v = displayName ns r.
Proof.
  unfold settingsClick. cbn [panelDisplay inputValues].
  split; [|split; [|split; [|split]]].
  - destruct (_ || _); auto.
  - destruct (String.eqb_spec (panelDisplay p) "none") as [->|Hn]; simpl.
    { split; auto. }
    destruct (String.eqb_spec (panelDisplay p) "") as [->|He]; simpl.
    { split; auto. }
    split; [done|]. by intros [?|?].
  - intros [->| ->]; reflexivity.
  - apply length_imap.
  - intros i v Hi. rewrite list_lookup_imap in Hi.
    destruct (inputValues p !! i); [|done]. injection Hi as <-.
    split.
    + unfold JS.or_string. by destruct (ns !! i) as [[|a v]|].
    + intros r Hr. unfold displayName. rewrite Hr.
      by rewrite Nat.add_1_r, Nat.sub_1_r.
Qed.

(** ** Times *)

Section TimeFacts.
Variable tanHalfFov : Q.

Lemma elapsed_nonneg (start now : Q) : (start <= now)%Q → (0 <= (now - start) / 1000)%Q.
Proof.
  intros H. unfold Qdiv. apply Qmult_le_0_compat; [lra|].
  apply Qinv_le_0_compat. lra.
Qed.

Lemma countdown_step_times now c s :
  runners (countdown_step now c s) = runners s
  ∧ timerText (countdown_step now c s) = timerText s
  ∧ (raceStarted (countdown_step now c s) = true →
     raceStarted s = true ∧ tStart (countdown_step now c s) = tStart s
     ∨ tStart (countdown_step now c s) = now).
Proof.
  split; [apply countdown_step_runners|].
  unfold countdown_step, onCountdownDone, playGunshot, playCountBeep.
  destruct (_ <=? _)%nat; simpl; destruct (audio s); simpl; auto.
Qed.

Lemma step_times_ok w e w' :
  times_ok w → step tanHalfFov w e = Some w' → times_ok w'.
Proof.
  intros (Hst & Htt & Hfin) Hs.
  apply step_inv in Hs as (Hc & Hc' & Hh).
  unfold times_ok. rewrite Hc'.
  destruct e as [now aspect|now|now|now k|now vals]; simpl in Hh, Hc |- *.
  - injection Hh as <-. destruct (raceStarted (app w)) eqn:Hr.
    + destruct (animationLoop_started tanHalfFov now aspect (app w) Hr)
        as (H1 & _ & _ & _ & H5 & _ & _ & H8).
      specialize (Hst eq_refl).
      assert (Hel : (0 <= (now - tStart (app w)) / 1000)%Q)
        by (apply elapsed_nonneg; lra).
      rewrite H1, H5, H8. split; [intros _; lra|]. split; [done|].
      apply Forall_fmap. eapply Forall_impl; [exact Hfin|].
      intros r Hr0 t. simpl. unfold frameStep, advanced.
      destruct (finished r); [apply Hr0|].
      destruct (JS.geb _ _); simpl; [|apply Hr0].
      by intros [= <-].
    + destruct (animationLoop_not_started tanHalfFov now aspect (app w) Hr)
        as (H1 & H2 & _).
      rewrite H1, H2. split; [done|]. split; [|done].
      unfold animationLoop. simpl. by rewrite Hr.
  - injection Hh as <-. unfold startRace.
    destruct (raceStarted (app w)) eqn:Hr.
    + rewrite Hr. split; [intros _; specialize (Hst eq_refl); lra|done].
    + unfold countdown.
      destruct (countdown_step_times now (mkCountdown ["3"; "2"; "1"; "GO!"] 700 0)
                  (ensureAudio (app w))) as (H1 & H2 & H3).
      rewrite H1, H2. split; [|done].
      intros Ht. destruct (H3 Ht) as [[Hx _]|Hx]; [|rewrite Hx; lra].
      simpl in Hx. congruence.
  - injection Hh as <-. split; [done|]. split; [simpl; lra|].
    eapply Forall_impl; [apply resetRace_at_start|].
    intros r (_ & _ & Hn) t. congruence.
  - destruct (timers (app w) !! k) as [t|]; [|done].
    destruct (Qle_bool _ _); [|done]. injection Hh as <-.
    destruct (task t) as [c|c|]; simpl.
    + split; [|done]. intros Hr. specialize (Hst Hr). lra.
    + destruct (countdown_step_times now c
                  (set_timers (delete k (timers (app w))) (app w))) as (H1 & H2 & H3).
      rewrite H1, H2. split; [|done].
      intros Ht. destruct (H3 Ht) as [[Hx Hy]|Hx]; rewrite ?Hx, ?Hy; [|lra].
      simpl. specialize (Hst Hx). lra.
    + split; [|done]. intros Hr. specialize (Hst Hr). lra.
  - injection Hh as <-. simpl. split; [|done].
    intros Hr. specialize (Hst Hr). lra.
Qed.

End TimeFacts.

(** X19.  In every state the page can reach, with a clock that does not
    run backwards: a running race started no later than the current
    clock reading, the time on display is not negative, and no runner
    has a negative finish time, even when a second countdown has moved
    the start time while the race was on. *)
Theorem times_are_never_negative
    (tanHalfFov t0 : Q) (rand : nat → Q) (storedNames : option (list string))
    (storedPBs : option (gmap string Q)) (es : list Event) (w : World) :
  run tanHalfFov (init t0 rand storedNames storedPBs) es = Some w →
  (raceStarted (app w) = true → (tStart (app w) <= clock w)%Q)
  ∧ (0 <= timerText (app w))%Q
  ∧ Forall (λ r, ∀ t, tFinish r = Some t → (0 <= t)%Q) (runners (app w)).
Proof.
  intros Hrun.
  apply (run_invariant tanHalfFov times_ok _ _ _) in Hrun; [exact Hrun| |].
  - intros w1 e w2. apply step_times_ok.
  - split; [done|]. split; [simpl; lra|].
    rewrite init_runners. by apply loadRunners_Forall.
Qed.

Lemma times_are_never_negative_witness :
  ∃ w, raceDemo = Some w ∧ (0 <= timerText (app w))%Q.
Proof.
  eexists. split.
  - vm_compute. reflexivity.
  - refine (proj1 (proj2 (times_are_never_negative 0.6008606 0 draws0 None None
              ([ClickStart 1000] ++ countdownEvents 1000 ++ frameEvents 4280 3)
              _ _))).
    vm_compute. reflexivity.
Defined.

(** ** Ties on the score board *)

Lemma insert_filter_time t x l :
  filter (has_time t) (JS.insert compareFn x l)
  = if decide (has_time t x) then x :: filter (has_time t) l
    else filter (has_time t) l.
Proof.
  induction l as [|y l IH]; cbn [JS.insert].
  - rewrite filter_cons. by destruct (decide (has_time t x)).
  - destruct (Qle_bool (compareFn x y) 0) eqn:E.
    + rewrite filter_cons. by destruct (decide (has_time t x)).
    + rewrite filter_cons, IH, (filter_cons _ y l).
      destruct (decide (has_time t x)) as [Hx|Hx]; [|done].
      destruct (decide (has_time t y)) as [Hy|Hy]; [|done].
      exfalso. unfold has_time, compareFn in *.
      destruct (tFinish x) as [tx|]; [|done].
      destruct (tFinish y) as [ty|]; [|done].
      apply Qeq_bool_iff in Hx, Hy.
      assert (Qle_bool (tx - ty) 0 = true); [|congruence].
      apply Qle_bool_iff. lra.
Qed.

(** X20.  Runners with the same finish time, such as two that cross the
    line in the same frame, appear on the score board in lane order: for
    every time, the runners with that time are in the ranking in the
    order they have in the list of runners. *)
Theorem rank_keeps_lane_order_among_ties (t : Q) (rs : list Runner) :
  filter (has_time t) (rank rs) = filter (has_time t) rs.
Proof.
  unfold rank. induction rs as [|x rs IH]; [done|].
  cbn [JS.Array_sort]. rewrite insert_filter_time, IH, filter_cons.
  by destruct (decide (has_time t x)).
Qed.

Example photo_finish_in_lane_order :
  lane <$> rank [ mkRunner "lane1" 1 "" 0 0 100 7 true (Some 12.55) 0.6;
                  mkRunner "lane2" 2 "" 0 0 100 7 true (Some 12.5) 0.6;
                  mkRunner "lane3" 3 "" 0 0 100 7 true (Some (25 / 2)) 0.6 ]%Q
  = [2; 3; 1]%nat.
Proof. reflexivity. Qed.
